(** * Beam diagnostics of APtools

    A shallow embedding of [aptools/data_analysis/beam_diagnostics.py] and
    the properties of its estimators.

    Numbers.  The program computes on IEEE double precision floats.  They
    are idealised here as real numbers: every arithmetic operation is the
    exact one.  An operation whose float result is [inf] or [nan] (a numpy
    division by zero, the square root of a negative number) has no real
    value; it ends the run with [Err NotFinite], and what Python would go on
    to compute from the [inf] or [nan] is not followed.

    Arrays.  A one-dimensional numpy array of floats is a [list R]; two
    arrays combine elementwise under numpy's broadcasting rule.  The arrays
    that [twiss_parameters] updates in place live in a heap and are passed
    by reference.

    Outcomes.  A function returns [Ok v] or fails with [Err e], where [e]
    names the Python exception, or is [NotFinite].  The message that
    [current_profile] prints is not part of the model.

    The helpers of [aptools.helper_functions] ([weighted_std],
    [slope_of_correlation], [create_beam_slices]) are not among the sources;
    they are modelled from the specification and marked as such. *)

From Stdlib Require Import Reals Lra Lia List String.
From stdpp Require Import gmap list strings.

Open Scope R_scope.

(** ** Outcomes of a Python computation *)

Inductive error : Set :=
  | ZeroDivisionError
  | TypeError
  | ValueError
  | IndexError
  | RuntimeError
  | UnboundLocalError
  | NotFinite       (* an inf or a nan was produced *)
  | RankDeficient   (* least squares on a system without a unique solution *)
  | NoObject.       (* a reference that names no array of the heap *)

Inductive res (A : Type) : Type :=
  | Ok (a : A)
  | Err (e : error).

Arguments Ok {A} a.
Arguments Err {A} e.

#[global] Instance res_ret : MRet res := fun A => @Ok A.
#[global] Instance res_bind : MBind res := fun A B f m =>
  match m with
  | Ok a => f a
  | Err e => Err e
  end.
#[global] Instance res_fmap : FMap res := fun A B f m =>
  match m with
  | Ok a => Ok (f a)
  | Err e => Err e
  end.

(** ** Arrays, scalars and weights *)

Abbreviation array := (list R).

(** The statistical weight [w] is "array or single value". *)
Inductive weight : Type :=
  | WNum (r : R)
  | WArr (a : array).

Definition Rltb (a b : R) : bool := if Rlt_dec a b then true else false.
Definition Rleb (a b : R) : bool := if Rle_dec a b then true else false.
Definition Reqb (a b : R) : bool := if Req_dec_T a b then true else false.

(** ** numpy *)

Fixpoint np_sum (a : array) : R :=
  match a with
  | [] => 0
  | v :: a' => v + np_sum a'
  end.

(** Elementwise combination of two arrays under numpy's broadcasting rule
    for one dimension: equal lengths, or one of the two of length one. *)
Definition broadcast2 {C : Type} (f : R -> R -> C) (a b : array) : res (list C) :=
  if Nat.eqb (length a) (length b) then Ok (zip_with f a b)
  else match a, b with
       | [u], _ => Ok (map (f u) b)
       | _, [v] => Ok (map (fun t => f t v) a)
       | _, _ => Err ValueError
       end.

Definition np_add : array -> array -> res array := broadcast2 Rplus.
Definition np_subtract : array -> array -> res array := broadcast2 Rminus.
Definition np_multiply : array -> array -> res array := broadcast2 Rmult.

(** [a / b]: a zero divisor gives inf or nan. *)
Definition np_divide (a b : array) : res array :=
  c ← broadcast2 pair a b;
  if forallb (fun p => negb (Reqb (snd p) 0)) c
  then Ok (map (fun p => fst p / snd p) c)
  else Err NotFinite.

(** Division of two numpy scalars. *)
Definition fdiv (a b : R) : res R :=
  if Reqb b 0 then Err NotFinite else Ok (a / b).

Definition np_square (a : array) : array := map Rsqr a.

(** [np.square(None)] is a TypeError. *)
Definition np_square_opt (a : option array) : res array :=
  match a with
  | Some a => Ok (np_square a)
  | None => Err TypeError
  end.

Definition np_sqrt (v : R) : res R :=
  if Rltb v 0 then Err NotFinite else Ok (sqrt v).

Definition np_sqrt_arr (a : array) : res array :=
  if forallb (fun v => negb (Rltb v 0)) a then Ok (map sqrt a) else Err NotFinite.

Definition np_abs (w : weight) : weight :=
  match w with
  | WNum r => WNum (Rabs r)
  | WArr a => WArr (map Rabs a)
  end.

(** [np.sum(w)] of an array or of a single value. *)
Definition np_sum_w (w : weight) : R :=
  match w with
  | WNum r => r
  | WArr a => np_sum a
  end.

(** [np.average(a, weights=w)] without an axis: the shapes of [a] and of
    the weights must agree (a single value as weights of an array is
    refused), and the weights must not sum to zero. *)
Definition np_average (a : array) (w : weight) : res R :=
  match w with
  | WNum _ => Err TypeError
  | WArr wgt =>
      if Nat.eqb (length a) (length wgt) then
        let scl := np_sum wgt in
        if Reqb scl 0 then Err ZeroDivisionError
        else Ok (np_sum (zip_with Rmult a wgt) / scl)
      else Err TypeError
  end.

(** [np.max], [np.min]: a ValueError on an empty array. *)
Fixpoint np_max (a : array) : res R :=
  match a with
  | [] => Err ValueError
  | [v] => Ok v
  | v :: a' => m ← np_max a'; Ok (Rmax v m)
  end.

Fixpoint np_min (a : array) : res R :=
  match a with
  | [] => Err ValueError
  | [v] => Ok v
  | v :: a' => m ← np_min a'; Ok (Rmin v m)
  end.

(** [np.linspace(start, stop, num)]. *)
Definition np_linspace (start stop : R) (num : nat) : array :=
  map (fun i => start + INR i * ((stop - start) / INR (num - 1))) (seq 0 num).

Definition np_zeros (n : nat) : array := repeat 0 n.

(** [a[mask]]: selection by a boolean array of the same length. *)
Fixpoint compress (mask : list bool) (a : array) : array :=
  match mask, a with
  | b :: mask', v :: a' => if b then v :: compress mask' a' else compress mask' a'
  | _, _ => []
  end.

Definition mask_select (mask : list bool) (a : array) : res array :=
  if Nat.eqb (length mask) (length a) then Ok (compress mask a)
  else Err IndexError.

(** Least squares.  [np.polyfit(x, y, deg, w)] minimises
    [sum ((w_i * (y_i - p(x_i)))^2)]: the weights multiply the residuals.
    The solution is given by the normal equations, where these have a
    unique solution. *)
Definition polyfit_weights (n : nat) (w : option weight) : res array :=
  match w with
  | None => Ok (repeat 1 n)
  | Some (WNum _) => Err TypeError
  | Some (WArr a) => if Nat.eqb (length a) n then Ok a else Err TypeError
  end.

Definition moment (u x : array) (k : nat) : R :=
  np_sum (zip_with (fun ui xi => ui * xi ^ k) u x).

Definition moment_y (u x y : array) (k : nat) : R :=
  np_sum (zip_with (fun ux yi => ux * yi)
            (zip_with (fun ui xi => ui * xi ^ k) u x) y).

(** degree 1: the pair (slope, intercept) = (p[0], p[1]) *)
Definition np_polyfit1 (x y : array) (w : option weight) : res (R * R) :=
  if Nat.eqb (length x) 0 then Err TypeError
  else if negb (Nat.eqb (length x) (length y)) then Err TypeError
  else
    wa ← polyfit_weights (length y) w;
    let u := np_square wa in
    let s := moment u x 0 in
    let sx := moment u x 1 in
    let sxx := moment u x 2 in
    let sy := moment_y u x y 0 in
    let sxy := moment_y u x y 1 in
    let d := s * sxx - sx * sx in
    if Reqb d 0 then Err RankDeficient
    else Ok ((s * sxy - sx * sy) / d, (sxx * sy - sx * sxy) / d).

Definition det3 (a b c d e f g h i : R) : R :=
  a * (e * i - f * h) - b * (d * i - f * g) + c * (d * h - e * g).

(** degree 2: (p[0], p[1], p[2]), the highest power first *)
Definition np_polyfit2 (x y : array) (w : option weight) : res (R * R * R) :=
  if Nat.eqb (length x) 0 then Err TypeError
  else if negb (Nat.eqb (length x) (length y)) then Err TypeError
  else
    wa ← polyfit_weights (length y) w;
    let u := np_square wa in
    let m0 := moment u x 0 in
    let m1 := moment u x 1 in
    let m2 := moment u x 2 in
    let m3 := moment u x 3 in
    let m4 := moment u x 4 in
    let t0 := moment_y u x y 0 in
    let t1 := moment_y u x y 1 in
    let t2 := moment_y u x y 2 in
    let d := det3 m4 m3 m2 m3 m2 m1 m2 m1 m0 in
    if Reqb d 0 then Err RankDeficient
    else Ok (det3 t2 m3 m2 t1 m2 m1 t0 m1 m0 / d,
             det3 m4 t2 m2 m3 t1 m1 m2 t0 m0 / d,
             det3 m4 m3 t2 m3 m2 t1 m2 m1 t0 / d).

(** [np.cov(x, y, aweights=a)] with the default [ddof = 1], as the four
    entries of the 2x2 matrix. *)
Record matrix2 : Type := Matrix2 { m00 : R; m01 : R; m10 : R; m11 : R }.

Definition np_cov (x y : array) (aweights : weight) : res matrix2 :=
  match aweights with
  | WNum _ => Err IndexError
  | WArr a =>
      if negb (Nat.eqb (length x) (length y)) then Err ValueError
      else if negb (Nat.eqb (length a) (length x)) then Err RuntimeError
      else if existsb (fun v => Rltb v 0) a then Err ValueError
      else
        let w_sum := np_sum a in
        if Reqb w_sum 0 then Err ZeroDivisionError
        else
          let avg_x := np_sum (zip_with Rmult x a) / w_sum in
          let avg_y := np_sum (zip_with Rmult y a) / w_sum in
          let fact := w_sum - np_sum (zip_with Rmult a a) / w_sum in
          if Rleb fact 0 then Err NotFinite
          else
            let dx := map (fun v => v - avg_x) x in
            let dy := map (fun v => v - avg_y) y in
            let dot p q := np_sum (zip_with Rmult (zip_with Rmult p a) q) in
            Ok (Matrix2 (dot dx dx / fact) (dot dx dy / fact)
                        (dot dy dx / fact) (dot dy dy / fact))
  end.

Definition np_linalg_det (m : matrix2) : R :=
  m00 m * m11 m - m01 m * m10 m.

(** [a / s] and [a - s] for an array and a numpy scalar. *)
Definition np_divide_scalar (a : array) (s : R) : res array :=
  match a with
  | [] => Ok []
  | _ => if Reqb s 0 then Err NotFinite else Ok (map (fun v => v / s) a)
  end.

Definition np_subtract_scalar (a : array) (s : R) : array :=
  map (fun v => v - s) a.

Definition np_scale (s : R) (a : array) : array := map (fun v => s * v) a.

(** [a[i]] *)
Definition index (a : array) (i : nat) : res R :=
  match a !! i with
  | Some v => Ok v
  | None => Err IndexError
  end.

(** [np.histogram(a, bins=n, weights=q)] for an integer number of bins:
    [n] bins of equal width between the minimum and the maximum of [a];
    every bin is closed on the left and open on the right, but the last
    one, which is closed on both sides. *)
Definition in_bin (edges : array) (n i : nat) (v : R) : bool :=
  Rleb (nth i edges 0) v &&
  (if Nat.eqb (S i) n then Rleb v (nth (S i) edges 0)
   else Rltb v (nth (S i) edges 0)).

Definition outer_edges (a : array) : res (R * R) :=
  match a with
  | [] => Ok (0, 1)
  | _ =>
      first_edge ← np_min a;
      last_edge ← np_max a;
      if Reqb first_edge last_edge
      then Ok (first_edge - 1 / 2, last_edge + 1 / 2)
      else Ok (first_edge, last_edge)
  end.

Definition np_histogram (a : array) (bins : Z) (weights : array)
  : res (array * array) :=
  if negb (Nat.eqb (length a) (length weights)) then Err ValueError
  else if (bins <? 1)%Z then Err ValueError
  else
    let n := Z.to_nat bins in
    r ← outer_edges a;
    let edges := np_linspace (fst r) (snd r) (S n) in
    Ok (map (fun i => np_sum (compress (map (in_bin edges n i) a) weights))
            (seq 0 n),
        edges).

(** [int(r)]: truncation towards zero. *)
Definition py_int (r : R) : Z :=
  if Rltb r 0 then (- Int_part (- r))%Z else Int_part r.

(** [scipy.constants.c], the speed of light in m/s *)
Definition ct_c : R := 299792458.

(** ** aptools.helper_functions *)

(** Modelled from the spec: the weight of an ensemble (3), "weight may
    instead be a single scalar applied uniformly"; the helpers of
    aptools.helper_functions are not among the sources. *)
Definition uniform_weights (n : nat) (w : weight) : array :=
  match w with
  | WNum r => repeat r n
  | WArr a => a
  end.

(** Modelled from the spec: the weighted mean of the WeightedStatistics
    interface (4.1), "weighted arithmetic mean; weights may be a uniform
    scalar"; it fails when all weights are zero. *)
Definition weighted_mean (values : array) (weights : weight) : res R :=
  np_average values (WArr (uniform_weights (length values) weights)).

(** Modelled from the spec: [weighted_std] of aptools.helper_functions,
    which is not among the sources: "weighted standard deviation
    (population, not sample-corrected)" (4.1). *)
Definition weighted_std (values : array) (weights : weight) : res R :=
  mean_val ← weighted_mean values weights;
  var ← weighted_mean (map (fun v => (v - mean_val) ^ 2) values) weights;
  np_sqrt var.

(** Modelled from the spec: [slope_of_correlation] of
    aptools.helper_functions, which is not among the sources: the "generic
    weighted-linear-regression-slope utility" (1), the slope of the weighted
    least-squares line of [y] against [x]; without weights every point
    counts the same. *)
Definition slope_of_correlation (y x : array) (w : option weight) : res R :=
  let wgt := default (WNum 1) w in
  yx ← np_multiply y x;
  a ← weighted_mean yx wgt;
  b ← weighted_mean y wgt;
  c ← weighted_mean x wgt;
  d ← weighted_mean (np_square x) wgt;
  fdiv (a - b * c) (d - c * c).

(** Modelled from the spec: [create_beam_slices] of
    aptools.helper_functions, which is not among the sources (4.2
    computeSliceEdges): "if sliceLength is given, nSlices =
    floor((max(z)-min(z)) / sliceLength); otherwise uses nSlices directly.
    Edges are nSlices+1 uniformly spaced values from min(z) to max(z)." *)
Definition create_beam_slices (z : array) (n_slices : Z) (len_slice : option R)
  : res (array * Z) :=
  max_z ← np_max z;
  min_z ← np_min z;
  n ← match len_slice with
      | Some len => r ← fdiv (max_z - min_z) len; Ok (Int_part r)
      | None => Ok n_slices
      end;
  if (n + 1 <? 0)%Z then Err ValueError
  else Ok (np_linspace min_z max_z (Z.to_nat (n + 1)), n).

(** ** aptools.data_analysis.beam_diagnostics *)

(** [np.sqrt(np.square(px) + np.square(py) + np.square(pz))] *)
Definition momentum_norm (px : array) (py pz : option array) : res array :=
  sy ← np_square_opt py;
  s1 ← np_add (np_square px) sy;
  sz ← np_square_opt pz;
  s2 ← np_add s1 sz;
  np_sqrt_arr s2.

(** [np.sqrt(1 + np.square(px) + np.square(py) + np.square(pz))] *)
Definition particle_energy (px py pz : array) : res array :=
  s1 ← np_add (map (fun v => 1 + v) (np_square px)) (np_square py);
  s2 ← np_add s1 (np_square pz);
  np_sqrt_arr s2.

(** [(gamma - gamma_avg)/gamma_avg] *)
Definition relative_deviation (gamma : array) (gamma_avg : R) : res array :=
  np_divide_scalar (np_subtract_scalar gamma gamma_avg) gamma_avg.

Definition rms_length (z : array) (w : weight) : res R :=
  weighted_std z w.

Definition rms_size (x : array) (w : weight) : res R :=
  weighted_std x w.

Definition mean_kinetic_energy (px py pz : array) (w : weight) : res R :=
  g ← momentum_norm px (Some py) (Some pz);
  np_average g (np_abs w).

(** The average of the single value [1 + np.sqrt(np.square(kin_ene))] is
    that value. *)
Definition mean_energy (px py pz : array) (w : weight) : res R :=
  kin_ene ← mean_kinetic_energy px py pz w;
  Ok (1 + sqrt (Rsqr kin_ene)).

Definition rms_energy_spread (px py pz : array) (w : weight) : res R :=
  part_ene ← particle_energy px py pz;
  weighted_std part_ene w.

Definition relative_rms_energy_spread (px py pz : array) (w : weight) : res R :=
  abs_spread ← rms_energy_spread px py pz w;
  mean_ene ← mean_energy px py pz w;
  fdiv abs_spread mean_ene.

Definition longitudinal_energy_chirp (z px py pz : array) (w : weight) : res R :=
  ene ← particle_energy px py pz;
  mean_ene ← np_average ene w;
  mean_z ← np_average z w;
  dE_rel ← relative_deviation ene mean_ene;
  let dz := np_subtract_scalar z mean_z in
  p ← np_polyfit1 dz dE_rel None;
  Ok (fst p).

Definition rms_correlated_energy_spread (z px py pz : array) (w : weight)
  : res R :=
  K ← longitudinal_energy_chirp z px py pz w;
  mean_z ← np_average z w;
  let dz := np_subtract_scalar z mean_z in
  let corr_ene := np_scale K dz in
  weighted_std corr_ene w.

Definition normalized_transverse_rms_emittance
    (x px : array) (py pz : option array) (w : weight) (disp_corrected : bool)
  : res R :=
  if Nat.ltb 1 (length x) then
    x' ← (if disp_corrected then
            gamma ← momentum_norm px py pz;
            gamma_avg ← np_average gamma w;
            x_avg ← np_average x w;
            dgamma ← relative_deviation gamma gamma_avg;
            p ← np_polyfit2 dgamma x (Some w);
            let s1 := snd (fst p) in
            let s2 := fst (fst p) in
            slope ← slope_of_correlation x dgamma None;
            t ← np_subtract x (np_scale s1 dgamma);
            np_subtract t (np_scale s2 (map (fun d => d ^ 2) dgamma))
          else Ok x);
    cov_x ← np_cov x' px (np_abs w);
    np_sqrt (np_linalg_det cov_x)
  else Ok 0.

Definition geometric_transverse_rms_emittance
    (x px py pz : array) (w : weight) (disp_corrected : bool) : res R :=
  gamma ← momentum_norm px (Some py) (Some pz);
  gamma_avg ← np_average gamma w;
  em_x ← normalized_transverse_rms_emittance x px (Some py) (Some pz) w
            disp_corrected;
  fdiv em_x gamma_avg.

Definition transverse_trace_space_rms_emittance
    (x px : array) (py pz : option array) (w : weight) (disp_corrected : bool)
  : res R :=
  if Nat.ltb 1 (length x) then
    pz_arr ← match pz with Some a => Ok a | None => Err TypeError end;
    xp ← np_divide px pz_arr;
    c ← (if disp_corrected then
           gamma ← momentum_norm px py pz;
           gamma_avg ← np_average gamma w;
           dgamma ← relative_deviation gamma gamma_avg;
           sl ← slope_of_correlation x dgamma (Some w);
           x' ← np_subtract x (np_scale sl dgamma);
           sl' ← slope_of_correlation xp dgamma (Some w);
           xp' ← np_subtract xp (np_scale sl' dgamma);
           Ok (x', xp')
         else Ok (x, xp));
    cov_x ← np_cov (fst c) (snd c) (np_abs w);
    np_sqrt (np_linalg_det cov_x)
  else Ok 0.

Definition normalized_transverse_trace_space_rms_emittance
    (x px py pz : array) (w : weight) (disp_corrected : bool) : res R :=
  gamma ← momentum_norm px (Some py) (Some pz);
  gamma_avg ← np_average gamma w;
  em_x ← transverse_trace_space_rms_emittance x px (Some py) (Some pz) w
            disp_corrected;
  Ok (em_x * gamma_avg).

Definition longitudinal_rms_emittance (z px py pz : array) (w : weight) : res R :=
  g ← particle_energy px py pz;
  cov_l ← np_cov z g (np_abs w);
  np_sqrt (np_linalg_det cov_l).

(** *** Slices *)

(** [(z > a) & (z <= b)] *)
Definition slice_particle_filter (z : array) (a b : R) : list bool :=
  map (fun v => Rltb a v && Rleb v b) z.

Definition any (mask : list bool) : bool := existsb (fun b => b) mask.

(** [w[slice_particle_filter]] when [w] is iterable, [w] itself otherwise *)
Definition select_weight (mask : list bool) (w : weight) : res weight :=
  match w with
  | WNum r => Ok (WNum r)
  | WArr a => a' ← mask_select mask a; Ok (WArr a')
  end.

Definition select_opt (mask : list bool) (a : option array)
  : res (option array) :=
  match a with
  | Some a => a' ← mask_select mask a; Ok (Some a')
  | None => Ok None
  end.

(** [for i in np.arange(0, n): body], threading the two output arrays *)
Fixpoint for_each {S : Type} (idx : list nat) (body : nat -> S -> res S) (st : S)
  : res S :=
  match idx with
  | [] => Ok st
  | i :: idx' => st' ← body i st; for_each idx' body st'
  end.

Definition energy_spread_of_slice (z px py pz : array) (w : weight)
    (slice_lims : array) (i : nat) (st : array * array) : res (array * array) :=
  a ← index slice_lims i;
  b ← index slice_lims (i + 1);
  let slice_filter := slice_particle_filter z a b in
  if any slice_filter then
    z_slice ← mask_select slice_filter z;
    px_slice ← mask_select slice_filter px;
    py_slice ← mask_select slice_filter py;
    pz_slice ← mask_select slice_filter pz;
    w_slice ← select_weight slice_filter w;
    v ← relative_rms_energy_spread px_slice py_slice pz_slice w_slice;
    Ok (<[i := v]> (fst st), <[i := np_sum_w w_slice]> (snd st))
  else Ok st.

Definition relative_rms_slice_energy_spread (z px py pz : array) (w : weight)
    (n_slices : Z) (len_slice : option R) : res (array * array * array) :=
  s ← create_beam_slices z n_slices len_slice;
  let slice_lims := fst s in
  if (snd s <? 0)%Z then Err ValueError
  else
    let n := Z.to_nat (snd s) in
    st ← for_each (seq 0 n) (energy_spread_of_slice z px py pz w slice_lims)
           (np_zeros n, np_zeros n);
    Ok (fst st, snd st, slice_lims).

Definition emittance_of_slice (z x px : array) (py pz : option array)
    (w : weight) (disp_corrected : bool)
    (slice_lims : array) (i : nat) (st : array * array) : res (array * array) :=
  a ← index slice_lims i;
  b ← index slice_lims (i + 1);
  let slice_filter := slice_particle_filter z a b in
  if any slice_filter then
    x_slice ← mask_select slice_filter x;
    px_slice ← mask_select slice_filter px;
    py_slice ← select_opt slice_filter py;
    pz_slice ← select_opt slice_filter pz;
    w_slice ← select_weight slice_filter w;
    v ← normalized_transverse_rms_emittance x_slice px_slice py_slice pz_slice
          w_slice disp_corrected;
    Ok (<[i := v]> (fst st), <[i := np_sum_w w_slice]> (snd st))
  else Ok st.

Definition normalized_transverse_rms_slice_emittance (z x px : array)
    (py pz : option array) (w : weight) (disp_corrected : bool)
    (n_slices : Z) (len_slice : option R) : res (array * array * array) :=
  s ← create_beam_slices z n_slices len_slice;
  let slice_lims := fst s in
  if (snd s <? 0)%Z then Err ValueError
  else
    let n := Z.to_nat (snd s) in
    st ← for_each (seq 0 n)
           (emittance_of_slice z x px py pz w disp_corrected slice_lims)
           (np_zeros n, np_zeros n);
    Ok (fst st, snd st, slice_lims).

(** *** Current profile (the printed slice length is not modelled) *)

Definition current_profile (z q : array) (n_slices : Z) (len_slice : option R)
  : res (array * array) :=
  max_z ← np_max z;
  min_z ← np_min z;
  n ← match len_slice with
      | Some len => r ← fdiv (max_z - min_z) len; Ok (py_int r)
      | None => Ok n_slices
      end;
  adj_slice_len ← fdiv (max_z - min_z) (IZR n);
  h ← np_histogram z n q;
  let charge_hist := fst h in
  let z_edges := snd h in
  let sl_dur := adj_slice_len / ct_c in
  current_prof ← np_divide_scalar charge_hist sl_dur;
  Ok (current_prof, z_edges).

(** *** Twiss parameters

    [twiss_parameters] centres its arguments with [x -= x_avg]: the array
    object of the caller is updated.  Arrays are therefore passed by
    reference into a heap, and the function is a state transformer that
    also returns its outcome; the heap is kept when the run fails. *)

Definition loc := positive.
Abbreviation heap := (gmap loc (list R)).

Definition M (A : Type) : Type := heap -> heap * res A.

#[global] Instance M_ret : MRet M := fun A a h => (h, Ok a).
#[global] Instance M_bind : MBind M := fun A B f m h =>
  match m h with
  | (h', Ok a) => f a h'
  | (h', Err e) => (h', Err e)
  end.

Definition lift {A : Type} (r : res A) : M A := fun h => (h, r).

Definition load (l : loc) : M array := fun h =>
  (h, match h !! l with Some a => Ok a | None => Err NoObject end).

Definition store (l : loc) (a : array) : M unit := fun h =>
  (<[l := a]> h, Ok tt).

(** a new array object *)
Definition alloc (a : array) : M loc := fun h =>
  let l := fresh (dom h) in (<[l := a]> h, Ok l).

(** An argument that is an array object or a single value. *)
Inductive arg : Type :=
  | ANum (r : R)
  | ARef (l : loc).

Definition load_weight (w : arg) : M weight :=
  match w with
  | ANum r => mret (WNum r)
  | ARef l => a ← load l; mret (WArr a)
  end.

(** [py] may also be left at [None]. *)
Definition load_opt (py : option arg) : M (option array) :=
  match py with
  | None => mret None
  | Some (ANum r) => mret (Some [r])
  | Some (ARef l) => a ← load l; mret (Some a)
  end.

(** [a -= b] on the values: the result keeps the shape of [a]. *)
Definition isub_value (a b : array) : res array :=
  if Nat.eqb (length a) (length b) then Ok (zip_with Rminus a b)
  else match b with
       | [v] => Ok (np_subtract_scalar a v)
       | _ => Err ValueError
       end.

(** [x -= s] and [x -= b] on the array object [x] *)
Definition isub_scalar (x : loc) (s : R) : M unit :=
  a ← load x; store x (np_subtract_scalar a s).

Definition isub (x : loc) (b : array) : M unit :=
  a ← load x; a' ← lift (isub_value a b); store x a'.

Definition twiss_parameters (x px pz : loc) (py : option arg) (w : arg)
    (emitt : string) (disp_corrected : bool) : M (R * R * R) :=
  if String.eqb emitt "ph" then
    xv ← load x; pxv ← load px; pyv ← load_opt py; pzv ← load pz;
    wv ← load_weight w;
    em_x ← lift (normalized_transverse_rms_emittance xv pxv pyv (Some pzv) wv
                   disp_corrected);
    gamma ← lift (momentum_norm pxv pyv (Some pzv));
    gamma_avg ← lift (np_average gamma wv);
    x_avg ← lift (np_average xv wv);
    px_avg ← lift (np_average pxv wv);
    (* center x and px *)
    _ ← isub_scalar x x_avg;
    _ ← isub_scalar px px_avg;
    _ ← (if disp_corrected then
           (* remove x-gamma correlation *)
           dgamma ← lift (relative_deviation gamma gamma_avg);
           xv ← load x; wv ← load_weight w;
           slope ← lift (slope_of_correlation xv dgamma (Some wv));
           isub x (np_scale slope dgamma)
         else mret tt);
    xv ← load x; pxv ← load px; wv ← load_weight w;
    x2_avg ← lift (np_average (map (fun v => v ^ 2) xv) wv);
    b_x ← lift (fdiv (x2_avg * gamma_avg) em_x);
    xpx ← lift (np_multiply xv pxv);
    xpx_avg ← lift (np_average xpx wv);
    a_x ← lift (fdiv (- xpx_avg) em_x);
    g_x ← lift (fdiv (1 + a_x ^ 2) b_x);
    mret (a_x, b_x, g_x)
  else if String.eqb emitt "tr" then
    xv ← load x; pxv ← load px; pyv ← load_opt py; pzv ← load pz;
    wv ← load_weight w;
    em_x ← lift (transverse_trace_space_rms_emittance xv pxv pyv (Some pzv) wv
                   disp_corrected);
    xp ← lift (np_divide pxv pzv);
    (* center x and xp *)
    x_avg ← lift (np_average xv wv);
    xp_avg ← lift (np_average xp wv);
    _ ← isub_scalar x x_avg;
    let xp := np_subtract_scalar xp xp_avg in
    xp ← (if disp_corrected then
            (* remove x-gamma correlation *)
            pxv ← load px; pyv ← load_opt py; pzv ← load pz;
            wv ← load_weight w;
            gamma ← lift (momentum_norm pxv pyv (Some pzv));
            gamma_avg ← lift (np_average gamma wv);
            dgamma ← lift (relative_deviation gamma gamma_avg);
            xv ← load x;
            slope ← lift (slope_of_correlation xv dgamma (Some wv));
            _ ← isub x (np_scale slope dgamma);
            (* remove xp-gamma correlation *)
            wv ← load_weight w;
            slope ← lift (slope_of_correlation xp dgamma (Some wv));
            lift (isub_value xp (np_scale slope dgamma))
          else mret xp);
    xv ← load x; wv ← load_weight w;
    x2_avg ← lift (np_average (map (fun v => v ^ 2) xv) wv);
    b_x ← lift (fdiv x2_avg em_x);
    xxp ← lift (np_multiply xv xp);
    xxp_avg ← lift (np_average xxp wv);
    a_x ← lift (fdiv (- xxp_avg) em_x);
    g_x ← lift (fdiv (1 + a_x ^ 2) b_x);
    mret (a_x, b_x, g_x)
  else
    (* neither branch assigns a_x and b_x *)
    lift (Err UnboundLocalError).

Definition twiss_parameters_corrected (x px py pz : loc) (w : arg)
  : M (R * R * R) :=
  xv ← load x; pxv ← load px; pyv ← load py; pzv ← load pz;
  wv ← load_weight w;
  (* remove x-gamma correlation *)
  gamma ← lift (momentum_norm pxv (Some pyv) (Some pzv));
  gamma_avg ← lift (np_average gamma wv);
  x_avg ← lift (np_average xv wv);
  dgamma ← lift (relative_deviation gamma gamma_avg);
  p ← lift (np_polyfit1 dgamma xv (Some wv));
  let slope := fst p in
  x1 ← lift (np_subtract xv (np_scale slope dgamma));
  (* remove xp-gamma correlation *)
  xp ← lift (np_divide pxv pzv);
  p ← lift (np_polyfit1 dgamma xp (Some wv));
  let slope := fst p in
  xp1 ← lift (np_subtract xp (np_scale slope dgamma));
  px1 ← lift (np_multiply xp1 pzv);
  (* calculate Twiss: the fourth positional parameter of twiss_parameters
     is py, so that w is bound to py and the weight is the default 1 *)
  x' ← alloc x1;
  px' ← alloc px1;
  twiss_parameters x' px' pz (Some w) (ANum 1) "tr" false.

(** ** Least squares criteria

    The sum of the squared residuals of the line [a * x + b] through the
    points [(x_i, y_i)]: with every point counted the same, and with the
    residuals multiplied by weights as [np.polyfit] does. *)

Definition sum_sq_residuals (x y : array) (a b : R) : R :=
  np_sum (zip_with (fun xi yi => (yi - (a * xi + b)) ^ 2) x y).

Definition weighted_sum_sq_residuals (w x y : array) (a b : R) : R :=
  np_sum (zip_with (fun wi r => (wi * r) ^ 2) w
            (zip_with (fun xi yi => yi - (a * xi + b)) x y)).


(** The points of [np.linspace(start, stop, n + 1)]. *)
Definition grid (start stop : R) (n i : nat) : R :=
  start + INR i * ((stop - start) / INR n).

(** What one pass of the slice loops does to the array of slice weights,
    for per-particle weights [wa]. *)
Definition slice_weight_update (z wa slice_lims : array) (i : nat)
    (wts : array) : array :=
  match slice_lims !! i, slice_lims !! (i + 1)%nat with
  | Some a, Some b =>
      let f := slice_particle_filter z a b in
      if any f then <[i := np_sum (compress f wa)]> wts else wts
  | _, _ => wts
  end.

(** ** Frame of a heap computation *)

(** [m] leaves every array outside [L] as it is, also when it fails. *)
Definition touches_only {A : Type} (L : list loc) (m : M A) : Prop :=
  forall (h : heap) (l : loc), l ∉ L -> fst (m h) !! l = h !! l.

(** An ensemble of four particles: the arrays x, px, py, pz and w at the
    references 1 to 5. *)
Definition example_beam : heap :=
  <[1%positive := [2; 0; 0; 2]]>
    (<[2%positive := [3; -3; 6; -6]]>
       (<[3%positive := [0; 0; 0; 0]]>
          (<[4%positive := [4; 4; 8; 8]]>
             (<[5%positive := [1; 1; 2; 2]]> ∅)))).

(** ** The mean kinetic energy in the words of the specification *)

(** The words of the specification for the mean kinetic energy: the
    |w|-weighted mean of sqrt(px^2 + py^2 + pz^2), written out on the
    particles. *)
Definition spec_momentum (px py pz : array) : array :=
  zip_with (fun a q => sqrt (a * a + q)) px
    (zip_with (fun b c => b * b + c * c) py pz).

Definition spec_mean_kinetic_energy (px py pz wa : array) : R :=
  np_sum (zip_with (fun p w => p * Rabs w) (spec_momentum px py pz) wa)
  / np_sum (map Rabs wa).

(** ** Covariances and slice loops *)


(** One pass of a slice loop reads both edges of slice [i], writes at
    index [i] at most, and writes nothing when the slice is empty. *)
Definition slice_pass (z slice_lims : array) (i : nat)
    (st st' : array * array) : Prop :=
  length (fst st') = length (fst st) /\
  length (snd st') = length (snd st) /\
  (forall j, j <> i -> fst st' !! j = fst st !! j /\ snd st' !! j = snd st !! j) /\
  exists a b,
    slice_lims !! i = Some a /\ slice_lims !! (i + 1)%nat = Some b /\
    (any (slice_particle_filter z a b) = false -> st' = st).

(** * Properties *)

(** ** Comparisons and sums *)

Lemma Reqb_true (a b : R) : a = b -> Reqb a b = true.
Proof. intros H. unfold Reqb. destruct (Req_dec_T a b); [reflexivity | contradiction]. Qed.

Lemma Reqb_false (a b : R) : a <> b -> Reqb a b = false.
Proof. intros H. unfold Reqb. destruct (Req_dec_T a b); [contradiction | reflexivity]. Qed.

Lemma Rltb_true (a b : R) : a < b -> Rltb a b = true.
Proof. intros H. unfold Rltb. destruct (Rlt_dec a b); [reflexivity | contradiction]. Qed.

Lemma Rltb_false (a b : R) : b <= a -> Rltb a b = false.
Proof. intros H. unfold Rltb. destruct (Rlt_dec a b); [lra | reflexivity]. Qed.

Lemma Rleb_true (a b : R) : a <= b -> Rleb a b = true.
Proof. intros H. unfold Rleb. destruct (Rle_dec a b); [reflexivity | contradiction]. Qed.

Lemma Rleb_false (a b : R) : b < a -> Rleb a b = false.
Proof. intros H. unfold Rleb. destruct (Rle_dec a b); [lra | reflexivity]. Qed.

Lemma Reqb_spec (a b : R) : reflect (a = b) (Reqb a b).
Proof. unfold Reqb. destruct (Req_dec_T a b); constructor; assumption. Qed.

Lemma Rltb_spec (a b : R) : reflect (a < b) (Rltb a b).
Proof. unfold Rltb. destruct (Rlt_dec a b); constructor; assumption. Qed.

Lemma Rleb_spec (a b : R) : reflect (a <= b) (Rleb a b).
Proof. unfold Rleb. destruct (Rle_dec a b); constructor; assumption. Qed.

(** Inversion of a bind in the outcome monad. *)
Lemma res_bind_ok {A B : Type} (m : res A) (f : A -> res B) (b : B) :
  m ≫= f = Ok b -> exists a, m = Ok a /\ f a = Ok b.
Proof. destruct m as [a|e]; cbn; intros H; [eauto | discriminate]. Qed.

Ltac inv_bind H :=
  let a := fresh "v" in
  let Ha := fresh "E" in
  apply res_bind_ok in H; destruct H as (a & Ha & H).

Ltac simpl_bind := cbn [mbind res_bind mret res_ret fmap res_fmap].
Ltac simpl_bind_in H := cbn [mbind res_bind mret res_ret fmap res_fmap] in H.

(** Evaluation on concrete inputs: the tests on real numbers are settled by
    linear arithmetic. *)
Ltac rarith := unfold Rsqr; simpl; lra.

Ltac rabs :=
  repeat match goal with
  | |- context [Rabs ?c] =>
      first [rewrite (Rabs_right c) by rarith | rewrite (Rabs_left c) by rarith]
  end.

Ltac rtest :=
  match goal with
  | |- context [Reqb ?a ?b] =>
      first [rewrite (Reqb_false a b) by rarith
            | rewrite (Reqb_true a b) by rarith]
  | |- context [Rltb ?a ?b] =>
      first [rewrite (Rltb_false a b) by rarith
            | rewrite (Rltb_true a b) by rarith]
  | |- context [Rleb ?a ?b] =>
      first [rewrite (Rleb_false a b) by rarith
            | rewrite (Rleb_true a b) by rarith]
  end.

Ltac rsqrt c v :=
  replace (sqrt c) with v by (symmetry; apply sqrt_lem_1; rarith).

Ltac reval := repeat (cbn; rabs; try rtest).

Ltac rminmax :=
  repeat match goal with
  | |- context [Rmax ?a ?b] =>
      first [rewrite (Rmax_right a b) by lra | rewrite (Rmax_left a b) by lra]
  | |- context [Rmin ?a ?b] =>
      first [rewrite (Rmin_left a b) by lra | rewrite (Rmin_right a b) by lra]
  end.

(** ** Emittance of fewer than two particles *)

(** C5: with fewer than two particles ([len(x) < 2]) the phase-space and
    the trace-space RMS emittance both return 0, without an error, whatever
    the other arrays, the weights and the dispersion flag are. *)
Theorem emittance_of_fewer_than_two_particles
    (x px : array) (py pz : option array) (w : weight) (disp_corrected : bool) :
  (length x < 2)%nat ->
  normalized_transverse_rms_emittance x px py pz w disp_corrected = Ok 0 /\
  transverse_trace_space_rms_emittance x px py pz w disp_corrected = Ok 0.
Proof.
  intros Hlen.
  unfold normalized_transverse_rms_emittance,
    transverse_trace_space_rms_emittance.
  assert (Hlt : Nat.ltb 1 (length x) = false) by (apply Nat.ltb_ge; lia).
  rewrite Hlt. split; reflexivity.
Qed.

Lemma emittance_of_fewer_than_two_particles_witness :
  normalized_transverse_rms_emittance [1] [2] None None (WNum 1) true = Ok 0 /\
  transverse_trace_space_rms_emittance [1] [2] None None (WNum 1) true = Ok 0.
Proof.
  apply (emittance_of_fewer_than_two_particles [1] [2] None None (WNum 1) true).
  simpl. lia.
Defined.

(** ** Mean energy *)

Lemma np_sqrt_arr_nonneg (a g : array) :
  np_sqrt_arr a = Ok g -> Forall (fun v => 0 <= v) g.
Proof.
  unfold np_sqrt_arr. destruct (forallb _ a); [|discriminate].
  intros [= <-]. apply Forall_forall. intros v Hv.
  apply list_elem_of_In, in_map_iff in Hv. destruct Hv as (u & <- & _).
  apply sqrt_pos.
Qed.

Lemma momentum_norm_nonneg (px : array) (py pz : option array) (g : array) :
  momentum_norm px py pz = Ok g -> Forall (fun v => 0 <= v) g.
Proof.
  unfold momentum_norm. intros H.
  inv_bind H. inv_bind H. inv_bind H. inv_bind H.
  eapply np_sqrt_arr_nonneg, H.
Qed.

Lemma np_sum_abs_nonneg (a : array) : 0 <= np_sum (map Rabs a).
Proof.
  induction a as [|v a IH]; simpl; [lra|].
  pose proof (Rabs_pos v). lra.
Qed.

Lemma np_sum_weighted_nonneg (g a : array) :
  Forall (fun v => 0 <= v) g -> 0 <= np_sum (zip_with Rmult g (map Rabs a)).
Proof.
  intros Hg. revert a. induction Hg as [|v g Hv Hg IH]; intros [|u a]; simpl;
    try lra.
  specialize (IH a). pose proof (Rabs_pos u). nra.
Qed.

Lemma np_average_abs_nonneg (g : array) (w : weight) (k : R) :
  Forall (fun v => 0 <= v) g -> np_average g (np_abs w) = Ok k -> 0 <= k.
Proof.
  intros Hg. destruct w as [r|a]; simpl; [discriminate|].
  destruct (Nat.eqb _ _); [|discriminate].
  destruct (Reqb_spec (np_sum (map Rabs a)) 0) as [|Hne]; [discriminate|].
  intros [= <-].
  pose proof (np_sum_abs_nonneg a). pose proof (np_sum_weighted_nonneg g a Hg).
  apply Rmult_le_pos; [assumption|].
  apply Rlt_le, Rinv_0_lt_compat. lra.
Qed.

Lemma mean_kinetic_energy_nonneg (px py pz : array) (w : weight) (k : R) :
  mean_kinetic_energy px py pz w = Ok k -> 0 <= k.
Proof.
  unfold mean_kinetic_energy. intros H. inv_bind H.
  eapply np_average_abs_nonneg; [|exact H].
  eapply momentum_norm_nonneg, E.
Qed.

Lemma mean_energy_of_kinetic (px py pz : array) (w : weight) (k : R) :
  mean_kinetic_energy px py pz w = Ok k ->
  mean_energy px py pz w = Ok (1 + k).
Proof.
  intros Hk. unfold mean_energy. rewrite Hk. simpl_bind.
  rewrite sqrt_Rsqr; [reflexivity|].
  eapply mean_kinetic_energy_nonneg, Hk.
Qed.

(** Two particles of momentum 5 with the weights 1 and -3: the weights
    enter by their absolute values. *)
Lemma mean_energy_example :
  mean_kinetic_energy [3; 0] [0; 0] [4; 5] (WArr [1; -3]) = Ok 5 /\
  mean_energy [3; 0] [0; 0] [4; 5] (WArr [1; -3]) = Ok 6.
Proof.
  assert (Hk : mean_kinetic_energy [3; 0] [0; 0] [4; 5] (WArr [1; -3]) = Ok 5).
  { unfold mean_kinetic_energy, momentum_norm, np_sqrt_arr. reval.
    rsqrt (3² + 0² + 4²) 5. rsqrt (0² + 0² + 5²) 5.
    reval. f_equal. field. }
  split; [exact Hk|].
  unfold mean_energy. rewrite Hk. simpl_bind.
  rewrite sqrt_Rsqr by lra. f_equal. lra.
Qed.

(** ** Geometric and normalized emittance *)

Lemma fdiv_ok (a b q : R) : fdiv a b = Ok q -> b <> 0 /\ q = a / b.
Proof.
  unfold fdiv. destruct (Reqb_spec b 0); [discriminate|].
  intros [= <-]. split; [assumption | reflexivity].
Qed.

(** C4: whenever the geometric emittance is returned, multiplying it by
    gamma_avg, the w-weighted mean of sqrt(px^2 + py^2 + pz^2), gives back
    the phase-space (normalized) RMS emittance of the same input. *)
Theorem geometric_emittance_times_gamma_avg
    (x px py pz : array) (w : weight) (disp_corrected : bool) (em_geo : R) :
  geometric_transverse_rms_emittance x px py pz w disp_corrected = Ok em_geo ->
  exists gamma gamma_avg,
    momentum_norm px (Some py) (Some pz) = Ok gamma /\
    np_average gamma w = Ok gamma_avg /\
    normalized_transverse_rms_emittance x px (Some py) (Some pz) w
      disp_corrected = Ok (em_geo * gamma_avg).
Proof.
  unfold geometric_transverse_rms_emittance. intros H.
  inv_bind H. inv_bind H. inv_bind H.
  apply fdiv_ok in H. destruct H as [Hne ->].
  exists v, v0. repeat split; try assumption.
  rewrite E1. f_equal. field. assumption.
Qed.

Lemma geometric_emittance_times_gamma_avg_witness :
  exists gamma gamma_avg,
    momentum_norm [3; -3; 0] (Some [0; 0; 0]) (Some [4; 4; 5]) = Ok gamma /\
    np_average gamma (WArr [1; 1; 1]) = Ok gamma_avg /\
    normalized_transverse_rms_emittance [-1; 0; 1] [3; -3; 0] (Some [0; 0; 0])
      (Some [4; 4; 5]) (WArr [1; 1; 1]) false
    = Ok (sqrt (27 / 4) / 5 * gamma_avg).
Proof.
  apply (geometric_emittance_times_gamma_avg
           [-1; 0; 1] [3; -3; 0] [0; 0; 0] [4; 4; 5] (WArr [1; 1; 1]) false).
  unfold geometric_transverse_rms_emittance, momentum_norm, np_sqrt_arr.
  reval.
  rsqrt (3² + 0² + 4²) 5. rsqrt ((-3)² + 0² + 4²) 5. rsqrt (0² + 0² + 5²) 5.
  reval. unfold np_sqrt, np_linalg_det. reval. unfold fdiv. reval.
  f_equal. f_equal; [f_equal|]; lra.
Defined.

(** ** Weighted means and sums *)

Lemma np_sqrt_ok (v s : R) : np_sqrt v = Ok s -> 0 <= v /\ s = sqrt v.
Proof.
  unfold np_sqrt. destruct (Rltb_spec v 0); [discriminate|].
  intros [= <-]. split; [lra | reflexivity].
Qed.

Lemma np_average_ok (a : array) (w : weight) (m : R) :
  np_average a w = Ok m ->
  exists wgt, w = WArr wgt /\ length a = length wgt /\ np_sum wgt <> 0 /\
              m = np_sum (zip_with Rmult a wgt) / np_sum wgt.
Proof.
  destruct w as [r|wgt]; simpl; [discriminate|].
  destruct (Nat.eqb_spec (length a) (length wgt)); [|discriminate].
  destruct (Reqb_spec (np_sum wgt) 0); [discriminate|].
  intros [= <-]. exists wgt. auto.
Qed.

Lemma np_average_arr (a wgt : array) :
  length a = length wgt -> np_sum wgt <> 0 ->
  np_average a (WArr wgt) = Ok (np_sum (zip_with Rmult a wgt) / np_sum wgt).
Proof.
  intros Hl Hs. simpl. rewrite Hl, Nat.eqb_refl, (Reqb_false _ _ Hs). reflexivity.
Qed.

Lemma np_sum_centered (z wgt : array) (m : R) :
  length z = length wgt ->
  np_sum (zip_with Rmult (np_subtract_scalar z m) wgt)
  = np_sum (zip_with Rmult z wgt) - m * np_sum wgt.
Proof.
  revert wgt. induction z as [|v z IH]; intros [|u wgt] Hl; simpl in *;
    try discriminate; [lra|].
  rewrite IH by lia. lra.
Qed.

Lemma np_sum_scaled (f g : R -> R) (c : R) (z wgt : array) :
  (forall v, f v = c * g v) ->
  np_sum (zip_with Rmult (map f z) wgt) = c * np_sum (zip_with Rmult (map g z) wgt).
Proof.
  intros Hfg. revert wgt. induction z as [|v z IH]; intros [|u wgt]; simpl;
    try lra.
  rewrite IH, Hfg. lra.
Qed.

(** ** The means are defined for a positive total weight *)

Lemma broadcast2_same_length {C : Type} (f : R -> R -> C) (a b : array) :
  length a = length b -> broadcast2 f a b = Ok (zip_with f a b).
Proof. intros H. unfold broadcast2. rewrite H, Nat.eqb_refl. reflexivity. Qed.

Lemma np_sqrt_arr_nonneg_arg (a : array) :
  Forall (fun v => 0 <= v) a -> np_sqrt_arr a = Ok (map sqrt a).
Proof.
  intros H. unfold np_sqrt_arr.
  replace (forallb _ a) with true; [reflexivity|].
  symmetry. apply forallb_forall. intros v Hv.
  rewrite Forall_forall in H. specialize (H v (proj2 (list_elem_of_In _ _) Hv)).
  rewrite Rltb_false by assumption. reflexivity.
Qed.

Lemma sum_of_squares_nonneg (px py pz : array) :
  Forall (fun v => 0 <= v)
    (zip_with Rplus (zip_with Rplus (np_square px) (np_square py)) (np_square pz)).
Proof.
  revert py pz. induction px as [|a px IH]; intros [|b py] [|c pz];
    cbn; try constructor.
  - pose proof (Rle_0_sqr a). pose proof (Rle_0_sqr b). pose proof (Rle_0_sqr c).
    lra.
  - apply IH.
Qed.

Lemma np_sum_le_abs (a : array) : np_sum a <= np_sum (map Rabs a).
Proof.
  induction a as [|v a IH]; simpl; [lra|].
  pose proof (Rle_abs v). lra.
Qed.

(** With arrays of one length and a positive total weight the two means
    are defined. *)
Lemma mean_energy_defined (px py pz wa : array) :
  length px = length py -> length py = length pz -> length pz = length wa ->
  0 < np_sum wa ->
  exists k, mean_kinetic_energy px py pz (WArr wa) = Ok k /\
            mean_energy px py pz (WArr wa) = Ok (1 + k).
Proof.
  intros H1 H2 H3 Hw.
  assert (Hk : exists k, mean_kinetic_energy px py pz (WArr wa) = Ok k).
  { unfold mean_kinetic_energy, momentum_norm. cbn [np_square_opt]. simpl_bind.
    unfold np_add. rewrite broadcast2_same_length
      by (unfold np_square; rewrite !length_map; assumption).
    simpl_bind. rewrite broadcast2_same_length
      by (unfold np_square; rewrite length_zip_with, !length_map; lia).
    simpl_bind. rewrite np_sqrt_arr_nonneg_arg by apply sum_of_squares_nonneg.
    simpl_bind. cbn [np_abs]. rewrite np_average_arr.
    - eexists. reflexivity.
    - unfold np_square. rewrite !length_map, !length_zip_with, !length_map. lia.
    - pose proof (np_sum_le_abs wa). lra. }
  destruct Hk as [k Hk]. exists k. split; [assumption|].
  apply mean_energy_of_kinetic, Hk.
Qed.

(** ** The value of the mean energy *)

Lemma momentum_as_in_spec (px py pz : array) :
  map sqrt
    (zip_with Rplus (zip_with Rplus (np_square px) (np_square py))
       (np_square pz))
  = spec_momentum px py pz.
Proof.
  unfold spec_momentum.
  revert py pz. induction px as [|a px IH]; intros [|b py] [|c pz];
    try reflexivity.
  cbn [np_square map zip_with]. f_equal; [|apply IH].
  f_equal. unfold Rsqr. lra.
Qed.

Lemma weighted_by_abs (p wa : array) :
  zip_with Rmult p (map Rabs wa) = zip_with (fun v w => v * Rabs w) p wa.
Proof.
  revert wa. induction p as [|v p IH]; intros [|w wa]; try reflexivity.
  cbn [map zip_with]. rewrite IH. reflexivity.
Qed.

Lemma mean_kinetic_energy_value (px py pz wa : array) :
  length px = length py -> length py = length pz -> length pz = length wa ->
  0 < np_sum wa ->
  mean_kinetic_energy px py pz (WArr wa)
  = Ok (spec_mean_kinetic_energy px py pz wa).
Proof.
  intros H1 H2 H3 Hw.
  unfold mean_kinetic_energy, momentum_norm. cbn [np_square_opt]. simpl_bind.
  unfold np_add. rewrite broadcast2_same_length
    by (unfold np_square; rewrite !length_map; assumption).
  simpl_bind. rewrite broadcast2_same_length
    by (unfold np_square; rewrite length_zip_with, !length_map; lia).
  simpl_bind. rewrite np_sqrt_arr_nonneg_arg by apply sum_of_squares_nonneg.
  simpl_bind. cbn [np_abs]. rewrite np_average_arr.
  - rewrite momentum_as_in_spec, weighted_by_abs. reflexivity.
  - unfold np_square. rewrite !length_map, !length_zip_with, !length_map. lia.
  - pose proof (np_sum_le_abs wa). lra.
Qed.

(** C8: for px, py, pz and per-particle weights w of one length with a
    positive total weight, [mean_kinetic_energy] returns the |w|-weighted
    mean of sqrt(px^2 + py^2 + pz^2) and [mean_energy] returns 1 plus that
    mean.  For every weight, [mean_energy] is 1 + k whenever the mean
    kinetic energy is k and fails exactly as the mean kinetic energy
    does. *)
Theorem mean_energy_is_one_plus_kinetic (px py pz wa : array) :
  length px = length py -> length py = length pz -> length pz = length wa ->
  0 < np_sum wa ->
  mean_kinetic_energy px py pz (WArr wa)
  = Ok (spec_mean_kinetic_energy px py pz wa) /\
  mean_energy px py pz (WArr wa)
  = Ok (1 + spec_mean_kinetic_energy px py pz wa) /\
  forall w : weight,
    mean_energy px py pz w
    = (fun k => 1 + k) <$> mean_kinetic_energy px py pz w.
Proof.
  intros H1 H2 H3 Hw.
  pose proof (mean_kinetic_energy_value px py pz wa H1 H2 H3 Hw) as Hk.
  split; [exact Hk|]. split.
  - apply mean_energy_of_kinetic, Hk.
  - intros w.
    destruct (mean_kinetic_energy px py pz w) as [k|e] eqn:Hkw.
    + rewrite (mean_energy_of_kinetic _ _ _ _ _ Hkw). reflexivity.
    + unfold mean_energy. rewrite Hkw. reflexivity.
Qed.

Lemma spec_mean_kinetic_energy_example :
  spec_mean_kinetic_energy [3; 0] [0; 0] [4; 5] [-1; 3] = 5.
Proof.
  unfold spec_mean_kinetic_energy, spec_momentum. cbn.
  rsqrt (3 * 3 + (0 * 0 + 4 * 4)) 5. rsqrt (0 * 0 + (0 * 0 + 5 * 5)) 5.
  rabs. field.
Qed.

Lemma mean_energy_is_one_plus_kinetic_witness :
  mean_kinetic_energy [3; 0] [0; 0] [4; 5] (WArr [-1; 3])
  = Ok (spec_mean_kinetic_energy [3; 0] [0; 0] [4; 5] [-1; 3]) /\
  mean_energy [3; 0] [0; 0] [4; 5] (WArr [-1; 3])
  = Ok (1 + spec_mean_kinetic_energy [3; 0] [0; 0] [4; 5] [-1; 3]) /\
  forall w : weight,
    mean_energy [3; 0] [0; 0] [4; 5] w
    = (fun k => 1 + k) <$> mean_kinetic_energy [3; 0] [0; 0] [4; 5] w.
Proof.
  apply (mean_energy_is_one_plus_kinetic [3; 0] [0; 0] [4; 5] [-1; 3]);
    first [reflexivity | simpl; lra].
Defined.

(** ** Correlated energy spread *)

(** C10: the RMS correlated energy spread is |K| times the RMS bunch
    length, K being the longitudinal energy chirp: the weighted standard
    deviation of K * (z - mean_z) is |K| times the one of z. *)
Theorem correlated_energy_spread_is_chirp_times_length
    (z px py pz : array) (w : weight) (K s : R) :
  longitudinal_energy_chirp z px py pz w = Ok K ->
  rms_length z w = Ok s ->
  rms_correlated_energy_spread z px py pz w = Ok (Rabs K * s).
Proof.
  intros HK Hs. unfold rms_correlated_energy_spread. rewrite HK. simpl_bind.
  unfold longitudinal_energy_chirp in HK.
  inv_bind HK. inv_bind HK. inv_bind HK.
  rename v1 into mean_z. rewrite E1. simpl_bind.
  destruct (np_average_ok _ _ _ E1) as (wgt & -> & Hl & HW & Hm).
  unfold rms_length, weighted_std, weighted_mean in *. cbn [uniform_weights] in *.
  unfold np_scale, np_subtract_scalar in *.
  rewrite E1 in Hs. simpl_bind_in Hs.
  inv_bind Hs. rename v1 into var. apply np_sqrt_ok in Hs. destruct Hs as [Hvar ->].
  apply np_average_ok in E2. destruct E2 as (wgt' & [= <-] & Hl' & _ & Hv).
  rewrite length_map in Hl'.
  rewrite np_average_arr by (rewrite ?length_map; assumption).
  simpl_bind.
  assert (Hmean : np_sum (zip_with Rmult
             (map (fun v => K * v) (map (fun v => v - mean_z) z)) wgt)
           / np_sum wgt = 0).
  { rewrite map_map.
    rewrite (np_sum_scaled _ (fun v => v - mean_z) K) by (intros; reflexivity).
    change (map (fun v => v - mean_z) z) with (np_subtract_scalar z mean_z).
    rewrite np_sum_centered by assumption. rewrite Hm. field. assumption. }
  rewrite Hmean.
  rewrite np_average_arr by (rewrite ?length_map; assumption).
  simpl_bind.
  assert (Hvar' : np_sum (zip_with Rmult
            (map (fun v => (v - 0) ^ 2)
               (map (fun v => K * v) (map (fun v => v - mean_z) z))) wgt)
            / np_sum wgt
          = K² * var).
  { rewrite !map_map.
    rewrite (np_sum_scaled _ (fun v => (v - mean_z) ^ 2) (K²))
      by (intros; unfold Rsqr; ring).
    rewrite Hv. unfold Rdiv. ring. }
  rewrite Hvar'. unfold np_sqrt.
  rewrite Rltb_false by (pose proof (Rle_0_sqr K); nra).
  f_equal. rewrite sqrt_mult_alt by apply Rle_0_sqr.
  rewrite sqrt_Rsqr_abs. reflexivity.
Qed.

Lemma chirp_example :
  longitudinal_energy_chirp [0; 1] [0; 0] [0; 0] [0; 3 / 4] (WArr [1; 3])
  = Ok (4 / 19).
Proof.
  unfold longitudinal_energy_chirp, particle_energy, np_sqrt_arr.
  reval.
  rsqrt (1 + 0² + 0² + 0²) 1. rsqrt (1 + 0² + 0² + (3 / 4)²) (5 / 4).
  unfold relative_deviation, np_polyfit1, moment, moment_y.
  reval. f_equal. unfold Rsqr. field.
Qed.

Lemma rms_length_example :
  rms_length [0; 1] (WArr [1; 3]) = Ok (sqrt (3 / 16)).
Proof.
  unfold rms_length, weighted_std, weighted_mean, np_sqrt.
  reval. f_equal. f_equal. lra.
Qed.

Lemma correlated_energy_spread_is_chirp_times_length_witness :
  rms_correlated_energy_spread [0; 1] [0; 0] [0; 0] [0; 3 / 4] (WArr [1; 3])
  = Ok (Rabs (4 / 19) * sqrt (3 / 16)).
Proof.
  apply (correlated_energy_spread_is_chirp_times_length
           [0; 1] [0; 0] [0; 0] [0; 3 / 4] (WArr [1; 3])).
  - exact chirp_example.
  - exact rms_length_example.
Defined.

(** ** Least squares *)

Lemma moment_cons (ui xi : R) (u x : array) (k : nat) :
  moment (ui :: u) (xi :: x) k = ui * xi ^ k + moment u x k.
Proof. reflexivity. Qed.

Lemma moment_y_cons (ui xi yi : R) (u x y : array) (k : nat) :
  moment_y (ui :: u) (xi :: x) (yi :: y) k = ui * xi ^ k * yi + moment_y u x y k.
Proof. reflexivity. Qed.

Lemma weighted_ssr_cons (wi xi yi : R) (w x y : array) (a b : R) :
  weighted_sum_sq_residuals (wi :: w) (xi :: x) (yi :: y) a b
  = (wi * (yi - (a * xi + b))) ^ 2 + weighted_sum_sq_residuals w x y a b.
Proof. reflexivity. Qed.

(** The criterion is a quadratic polynomial of (a, b) whose coefficients
    are the moments of the normal equations. *)
Lemma weighted_ssr_expand (w x y : array) (a b : R) :
  length x = length y -> length w = length y ->
  let u := np_square w in
  weighted_sum_sq_residuals w x y a b
  = weighted_sum_sq_residuals w x y 0 0
    - 2 * a * moment_y u x y 1 - 2 * b * moment_y u x y 0
    + a * a * moment u x 2 + 2 * a * b * moment u x 1 + b * b * moment u x 0.
Proof.
  intros Hx Hw u. subst u. revert x y Hx Hw.
  induction w as [|wi w IH]; intros [|xi x] [|yi y] Hx Hw; simpl in Hx, Hw;
    try discriminate.
  - unfold weighted_sum_sq_residuals, moment, moment_y. simpl. lra.
  - change (np_square (wi :: w)) with (wi² :: np_square w).
    rewrite !weighted_ssr_cons, !moment_cons, !moment_y_cons.
    rewrite (IH x y) by lia. unfold Rsqr. ring.
Qed.

Lemma quadratic_form_nonneg (w x : array) (da db : R) :
  let u := np_square w in
  0 <= da * da * moment u x 2 + 2 * da * db * moment u x 1
       + db * db * moment u x 0.
Proof.
  intros u. subst u. revert x.
  induction w as [|wi w IH]; intros [|xi x];
    try (unfold moment; simpl; lra).
  change (np_square (wi :: w)) with (wi² :: np_square w).
  rewrite !moment_cons. specialize (IH x).
  assert (0 <= wi² * ((da * xi + db) * (da * xi + db))).
  { apply Rmult_le_pos; [apply Rle_0_sqr | apply Rle_0_sqr]. }
  simpl. nra.
Qed.

Lemma polyfit_weights_length (n : nat) (w : option weight) (wa : array) :
  polyfit_weights n w = Ok wa -> length wa = n.
Proof.
  destruct w as [[r|a]|]; simpl; try discriminate.
  - destruct (Nat.eqb_spec (length a) n); [|discriminate].
    intros [= <-]. assumption.
  - intros [= <-]. apply repeat_length.
Qed.

(** What [np.polyfit] of degree 1 returns minimises the weighted sum of
    the squared residuals among all lines. *)
Lemma np_polyfit1_least_squares (x y : array) (w : option weight) (p : R * R) :
  np_polyfit1 x y w = Ok p ->
  exists wa, polyfit_weights (length y) w = Ok wa /\
    forall a b, weighted_sum_sq_residuals wa x y (fst p) (snd p)
                <= weighted_sum_sq_residuals wa x y a b.
Proof.
  unfold np_polyfit1.
  destruct (Nat.eqb (length x) 0); [discriminate|].
  destruct (Nat.eqb_spec (length x) (length y)) as [Hxy|]; [|discriminate].
  cbn [negb]. intros H. inv_bind H. rename v into wa.
  exists wa. split; [assumption|].
  pose proof (polyfit_weights_length _ _ _ E) as Hwa.
  cbv zeta in H.
  destruct (Reqb_spec (moment (np_square wa) x 0 * moment (np_square wa) x 2 -
       moment (np_square wa) x 1 * moment (np_square wa) x 1) 0) as [|HD];
    [discriminate|].
  injection H as <-. intros a b. cbn [fst snd].
  rewrite (weighted_ssr_expand wa x y a b) by assumption.
  rewrite (weighted_ssr_expand wa x y _ _) by assumption.
  cbv zeta.
  set (S0 := moment (np_square wa) x 0) in *.
  set (Sx := moment (np_square wa) x 1) in *.
  set (Sxx := moment (np_square wa) x 2) in *.
  set (Sy := moment_y (np_square wa) x y 0) in *.
  set (Sxy := moment_y (np_square wa) x y 1) in *.
  set (K := (S0 * Sxy - Sx * Sy) / (S0 * Sxx - Sx * Sx)).
  set (c := (Sxx * Sy - Sx * Sxy) / (S0 * Sxx - Sx * Sx)).
  pose proof (quadratic_form_nonneg wa x (a - K) (b - c)) as HQ.
  cbv zeta in HQ. fold S0 Sx Sxx in HQ.
  assert (N1 : K * Sxx + c * Sx = Sxy) by (unfold K, c; field; assumption).
  assert (N2 : K * Sx + c * S0 = Sy) by (unfold K, c; field; assumption).
  clearbody K c S0 Sx Sxx Sy Sxy. subst Sxy Sy.
  nra.
Qed.

Lemma unweighted_ssr (x y : array) (a b : R) :
  length x = length y ->
  weighted_sum_sq_residuals (repeat 1 (length y)) x y a b
  = sum_sq_residuals x y a b.
Proof.
  revert y. induction x as [|xi x IH]; intros [|yi y] Hl; simpl in Hl;
    try discriminate; [reflexivity|].
  cbn [length repeat]. rewrite weighted_ssr_cons, IH by lia.
  unfold sum_sq_residuals. simpl. lra.
Qed.

Lemma np_polyfit1_lengths (x y : array) (w : option weight) (p : R * R) :
  np_polyfit1 x y w = Ok p -> length x = length y.
Proof.
  unfold np_polyfit1.
  destruct (Nat.eqb (length x) 0); [discriminate|].
  destruct (Nat.eqb_spec (length x) (length y)); [auto | discriminate].
Qed.

(** ** Longitudinal energy chirp *)

(** C7: the chirp K returned by [longitudinal_energy_chirp] is the slope
    of the unweighted least-squares line of (energy - mean_ene)/mean_ene
    against z - mean_z: with some intercept c it minimises the plain sum of
    squared residuals, in which no weight occurs.  The weights w enter only
    through the two means mean_ene and mean_z. *)
Theorem chirp_is_unweighted_least_squares_slope
    (z px py pz : array) (w : weight) (K : R) :
  longitudinal_energy_chirp z px py pz w = Ok K ->
  exists ene mean_ene mean_z dE_rel c,
    particle_energy px py pz = Ok ene /\
    np_average ene w = Ok mean_ene /\
    np_average z w = Ok mean_z /\
    relative_deviation ene mean_ene = Ok dE_rel /\
    forall a b,
      sum_sq_residuals (np_subtract_scalar z mean_z) dE_rel K c
      <= sum_sq_residuals (np_subtract_scalar z mean_z) dE_rel a b.
Proof.
  unfold longitudinal_energy_chirp. intros H.
  inv_bind H. inv_bind H. inv_bind H. inv_bind H. inv_bind H.
  injection H as <-.
  exists v, v0, v1, v2, (snd v3). repeat split; try assumption.
  intros a b.
  pose proof (np_polyfit1_lengths _ _ _ _ E3) as Hl.
  destruct (np_polyfit1_least_squares _ _ _ _ E3) as (wa & Hwa & Hmin).
  injection Hwa as <-.
  specialize (Hmin a b). rewrite !unweighted_ssr in Hmin by assumption.
  exact Hmin.
Qed.

Lemma chirp_is_unweighted_least_squares_slope_witness :
  exists ene mean_ene mean_z dE_rel c,
    particle_energy [0; 0] [0; 0] [0; 3 / 4] = Ok ene /\
    np_average ene (WArr [1; 3]) = Ok mean_ene /\
    np_average [0; 1] (WArr [1; 3]) = Ok mean_z /\
    relative_deviation ene mean_ene = Ok dE_rel /\
    forall a b,
      sum_sq_residuals (np_subtract_scalar [0; 1] mean_z) dE_rel (4 / 19) c
      <= sum_sq_residuals (np_subtract_scalar [0; 1] mean_z) dE_rel a b.
Proof.
  apply (chirp_is_unweighted_least_squares_slope
           [0; 1] [0; 0] [0; 0] [0; 3 / 4] (WArr [1; 3]) (4 / 19)).
  exact chirp_example.
Defined.

(** ** Bins and slices *)

Lemma np_min_le (a : array) (m : R) :
  np_min a = Ok m -> Forall (fun v => m <= v) a.
Proof.
  revert m. induction a as [|v a IH]; intros m H; [constructor|].
  destruct a as [|v' a].
  - injection H as <-. constructor; [lra | constructor].
  - cbn [np_min] in H. inv_bind H. injection H as <-.
    specialize (IH _ E). constructor.
    + apply Rmin_l.
    + eapply Forall_impl; [exact IH|]. cbv beta. intros t Ht.
      pose proof (Rmin_r v v0). lra.
Qed.

Lemma np_max_ge (a : array) (m : R) :
  np_max a = Ok m -> Forall (fun v => v <= m) a.
Proof.
  revert m. induction a as [|v a IH]; intros m H; [constructor|].
  destruct a as [|v' a].
  - injection H as <-. constructor; [lra | constructor].
  - cbn [np_max] in H. inv_bind H. injection H as <-.
    specialize (IH _ E). constructor.
    + apply Rmax_l.
    + eapply Forall_impl; [exact IH|]. cbv beta. intros t Ht.
      pose proof (Rmax_r v v0). lra.
Qed.

Lemma np_sum_app (a b : array) : np_sum (a ++ b) = np_sum a + np_sum b.
Proof. induction a as [|v a IH]; simpl; [lra | rewrite IH; lra]. Qed.

Lemma np_sum_map_add {A : Type} (f g : A -> R) (l : list A) :
  np_sum (map (fun i => f i + g i) l) = np_sum (map f l) + np_sum (map g l).
Proof. induction l as [|i l IH]; simpl; [lra | rewrite IH; lra]. Qed.

Lemma np_sum_map_ext {A : Type} (f g : A -> R) (l : list A) :
  (forall i, In i l -> f i = g i) -> np_sum (map f l) = np_sum (map g l).
Proof. intros H. f_equal. apply map_ext_in. exact H. Qed.

Lemma lookup_map {A B : Type} (f : A -> B) (l : list A) (i : nat) :
  map f l !! i = f <$> (l !! i).
Proof.
  revert i. induction l as [|a l IH]; intros [|i]; simpl; auto.
Qed.

Lemma linspace_lookup (start stop : R) (n i : nat) :
  (i <= n)%nat -> np_linspace start stop (S n) !! i = Some (grid start stop n i).
Proof.
  intros Hi. unfold np_linspace, grid.
  rewrite lookup_map, lookup_seq_lt by lia. simpl.
  rewrite Nat.sub_0_r. reflexivity.
Qed.

Lemma linspace_nth (start stop : R) (n i : nat) :
  (i <= n)%nat -> nth i (np_linspace start stop (S n)) 0 = grid start stop n i.
Proof.
  intros Hi. rewrite nth_lookup, linspace_lookup by assumption. reflexivity.
Qed.

Lemma grid_0 (start stop : R) (n : nat) : grid start stop n 0 = start.
Proof. unfold grid. simpl. lra. Qed.

Lemma grid_n (start stop : R) (n : nat) :
  (1 <= n)%nat -> grid start stop n n = stop.
Proof.
  intros Hn. unfold grid. field. apply not_0_INR. lia.
Qed.

Lemma grid_step (start stop : R) (n i : nat) :
  start <= stop -> grid start stop n i <= grid start stop n (S i).
Proof.
  intros H. unfold grid. rewrite S_INR.
  destruct n as [|n].
  - simpl. rewrite Rdiv_0_r. lra.
  - assert (0 < INR (S n)) by (apply lt_0_INR; lia).
    assert (0 <= (stop - start) / INR (S n)).
    { apply Rmult_le_pos; [lra|]. apply Rlt_le, Rinv_0_lt_compat. assumption. }
    lra.
Qed.

Lemma grid_mono (start stop : R) (n i j : nat) :
  start <= stop -> (i <= j)%nat -> grid start stop n i <= grid start stop n j.
Proof.
  intros H Hij. induction Hij as [|j Hij IH]; [lra|].
  pose proof (grid_step start stop n j H). lra.
Qed.

(** Bins along a non-decreasing sequence of edges. *)
Section Bins.
Variable e : nat -> R.
Hypothesis e_step : forall i, e i <= e (S i).

Lemma edges_mono (i j : nat) : (i <= j)%nat -> e i <= e j.
Proof.
  intros Hij. induction Hij as [|j Hij IH]; [lra|].
  pose proof (e_step j). lra.
Qed.

(** bins closed on the left *)
Lemma left_closed_bins (v u : R) (k : nat) :
  np_sum (map (fun i => if Rleb (e i) v && Rltb v (e (S i)) then u else 0)
            (seq 0 k))
  = if Rleb (e 0%nat) v && Rltb v (e k) then u else 0.
Proof.
  induction k as [|k IH].
  - simpl. destruct (Rleb_spec (e 0%nat) v), (Rltb_spec v (e 0%nat));
      simpl; lra.
  - rewrite seq_S, map_app, np_sum_app, IH. simpl.
    pose proof (edges_mono 0 k ltac:(lia)). pose proof (e_step k).
    destruct (Rleb_spec (e 0%nat) v), (Rltb_spec v (e k)),
      (Rleb_spec (e k) v), (Rltb_spec v (e (S k))); simpl; lra.
Qed.

(** bins closed on the right *)
Lemma right_closed_bins (v u : R) (k : nat) :
  np_sum (map (fun i => if Rltb (e i) v && Rleb v (e (S i)) then u else 0)
            (seq 0 k))
  = if Rltb (e 0%nat) v && Rleb v (e k) then u else 0.
Proof.
  induction k as [|k IH].
  - simpl. destruct (Rltb_spec (e 0%nat) v), (Rleb_spec v (e 0%nat));
      simpl; lra.
  - rewrite seq_S, map_app, np_sum_app, IH. simpl.
    pose proof (edges_mono 0 k ltac:(lia)). pose proof (e_step k).
    destruct (Rltb_spec (e 0%nat) v), (Rleb_spec v (e k)),
      (Rltb_spec (e k) v), (Rleb_spec v (e (S k))); simpl; lra.
Qed.
End Bins.

Lemma np_sum_compress_cons (b : bool) (mask : list bool) (u : R) (q : array) :
  np_sum (compress (b :: mask) (u :: q))
  = (if b then u else 0) + np_sum (compress mask q).
Proof. destruct b; simpl; lra. Qed.

Lemma np_sum_map_zero {A : Type} (l : list A) :
  np_sum (map (fun _ => 0) l) = 0.
Proof. induction l as [|i l IH]; simpl; [lra | rewrite IH; lra]. Qed.

(** Summing, over a family of masks, the selected weights: each particle
    contributes its weight once for every mask that selects it. *)
Lemma np_sum_over_masks {A : Type} (sel : A -> R -> bool) (idx : list A)
    (sel_all : R -> bool) (z q : array) :
  length z = length q ->
  (forall v u, In v z ->
     np_sum (map (fun i => if sel i v then u else 0) idx)
     = if sel_all v then u else 0) ->
  np_sum (map (fun i => np_sum (compress (map (sel i) z) q)) idx)
  = np_sum (compress (map sel_all z) q).
Proof.
  revert q. induction z as [|v z IH]; intros [|u q] Hl Hsel; simpl in Hl;
    try discriminate.
  - simpl. apply np_sum_map_zero.
  - rewrite (np_sum_map_ext _
      (fun i => (if sel i v then u else 0) + np_sum (compress (map (sel i) z) q))).
    2:{ intros i _. cbn [map]. apply np_sum_compress_cons. }
    rewrite np_sum_map_add, IH.
    + rewrite Hsel by (left; reflexivity). cbn [map].
      rewrite np_sum_compress_cons. reflexivity.
    + lia.
    + intros v' u' Hin. apply Hsel. right. assumption.
Qed.

Lemma compress_all (z q : array) (sel : R -> bool) :
  length z = length q -> Forall (fun v => sel v = true) z ->
  compress (map sel z) q = q.
Proof.
  intros Hl Hall. revert q Hl.
  induction Hall as [|v z Hv Hall IH]; intros [|u q] Hl; simpl in Hl;
    try discriminate; [reflexivity|].
  simpl. rewrite Hv, IH by lia. reflexivity.
Qed.

(** The histogram counts every particle between the outer edges once. *)
Lemma histogram_total (z q : array) (lo hi : R) (m : nat) :
  length z = length q -> lo <= hi ->
  Forall (fun v => lo <= v <= hi) z ->
  let edges := np_linspace lo hi (S (S m)) in
  np_sum (map (fun i => np_sum (compress (map (in_bin edges (S m) i) z) q))
            (seq 0 (S m)))
  = np_sum q.
Proof.
  intros Hl Hle Hz edges.
  rewrite (np_sum_over_masks (in_bin edges (S m)) _ (fun _ => true));
    [| assumption |].
  - rewrite compress_all; [reflexivity | assumption |].
    apply Forall_forall. reflexivity.
  - intros v u Hin.
    assert (Hv : lo <= v <= hi).
    { rewrite Forall_forall in Hz. apply Hz, list_elem_of_In, Hin. }
    rewrite seq_S, map_app, np_sum_app. cbn [map np_sum Nat.add].
    rewrite (np_sum_map_ext _
      (fun i => if Rleb (grid lo hi (S m) i) v && Rltb v (grid lo hi (S m) (S i))
                then u else 0)).
    2:{ intros i Hi. apply in_seq in Hi. unfold in_bin. subst edges.
        rewrite !linspace_nth by lia.
        replace (Nat.eqb (S i) (S m)) with false
          by (symmetry; apply Nat.eqb_neq; lia).
        reflexivity. }
    rewrite (left_closed_bins (grid lo hi (S m)))
      by (intros i; apply grid_step; assumption).
    unfold in_bin. subst edges. rewrite !linspace_nth by lia.
    rewrite Nat.eqb_refl, grid_0, (grid_n lo hi (S m)) by lia.
    pose proof (grid_mono lo hi (S m) 0 m Hle ltac:(lia)) as H0.
    pose proof (grid_step lo hi (S m) m Hle) as H1.
    rewrite grid_0 in H0. rewrite (grid_n lo hi (S m)) in H1 by lia.
    destruct (Rleb_spec lo v), (Rltb_spec v (grid lo hi (S m) m)),
      (Rleb_spec (grid lo hi (S m) m) v), (Rleb_spec v hi); simpl; lra.
Qed.

(** ** Current profile *)

Lemma np_sum_map_scale (c : R) (a : array) :
  np_sum (map (fun v => v * c) a) = np_sum a * c.
Proof. induction a as [|v a IH]; simpl; [lra | rewrite IH; lra]. Qed.

Lemma np_max_nonempty (z : array) (m : R) : np_max z = Ok m -> z <> [].
Proof. destruct z; [discriminate | discriminate]. Qed.

Lemma histogram_spread (z q : array) (n : Z) (min_z max_z : R) :
  np_min z = Ok min_z -> np_max z = Ok max_z -> min_z < max_z ->
  length z = length q -> (1 <= n)%Z ->
  exists hist,
    np_histogram z n q = Ok (hist, np_linspace min_z max_z (S (Z.to_nat n))) /\
    hist <> [] /\ np_sum hist = np_sum q.
Proof.
  intros Hmin Hmax Hlt Hl Hn. unfold np_histogram.
  rewrite Hl, Nat.eqb_refl. cbn [negb].
  replace (n <? 1)%Z with false by (symmetry; apply Z.ltb_ge; lia).
  unfold outer_edges. destruct z as [|v z]; [discriminate|].
  rewrite Hmin, Hmax. simpl_bind.
  rewrite Reqb_false by lra. simpl_bind. cbn [fst snd].
  destruct (Z.to_nat n) as [|m] eqn:Hm; [lia|].
  eexists. split; [reflexivity|]. split.
  - rewrite seq_S, map_app. intros Hnil. apply app_eq_nil in Hnil.
    destruct Hnil as [_ Hnil]. discriminate.
  - apply histogram_total; [assumption | lra |].
    pose proof (np_min_le _ _ Hmin) as H1. pose proof (np_max_ge _ _ Hmax) as H2.
    rewrite Forall_forall in *. intros t Ht. split; [apply H1 | apply H2]; exact Ht.
Qed.

(** C3: for a bunch of non-zero length (min(z) < max(z)), arrays z and q of
    equal length and at least one slice, [current_profile] returns, and
    the currents multiplied by the slice duration adj_slice_len / c add up
    to the total charge sum(q). *)
Theorem current_profile_total_charge
    (z q : array) (n_slices : Z) (len_slice : option R)
    (max_z min_z : R) (n : Z) :
  np_max z = Ok max_z -> np_min z = Ok min_z -> min_z < max_z ->
  length z = length q ->
  match len_slice with
  | Some len => len <> 0 /\ n = py_int ((max_z - min_z) / len)
  | None => n = n_slices
  end ->
  (1 <= n)%Z ->
  exists current_prof z_edges,
    current_profile z q n_slices len_slice = Ok (current_prof, z_edges) /\
    np_sum (map (fun c => c * ((max_z - min_z) / IZR n / ct_c)) current_prof)
    = np_sum q.
Proof.
  intros Hmax Hmin Hlt Hl Hcount Hn.
  unfold current_profile. rewrite Hmax, Hmin. simpl_bind.
  assert (Hcnt : match len_slice with
                 | Some len => r ← fdiv (max_z - min_z) len; Ok (py_int r)
                 | None => Ok n_slices
                 end = Ok n).
  { destruct len_slice as [len|].
    - destruct Hcount as [Hlen ->]. unfold fdiv. rewrite Reqb_false by assumption.
      reflexivity.
    - rewrite Hcount. reflexivity. }
  rewrite Hcnt. simpl_bind.
  assert (HIn : 0 < IZR n) by (apply IZR_lt; lia).
  unfold fdiv. rewrite Reqb_false by lra. simpl_bind.
  destruct (histogram_spread z q n min_z max_z Hmin Hmax Hlt Hl Hn)
    as (hist & -> & Hne & Hsum).
  simpl_bind. cbn [fst snd].
  assert (Hdur : 0 < (max_z - min_z) / IZR n / ct_c).
  { unfold ct_c. apply Rdiv_lt_0_compat; [|lra].
    apply Rdiv_lt_0_compat; lra. }
  set (d := (max_z - min_z) / IZR n / ct_c) in *.
  unfold np_divide_scalar. destruct hist as [|h hist]; [contradiction|].
  rewrite Reqb_false by lra. simpl_bind.
  eexists _, _. split; [reflexivity|].
  rewrite map_map.
  rewrite (np_sum_map_ext _ (fun v => v)).
  - rewrite map_id. exact Hsum.
  - intros t _. cbv beta. field. lra.
Qed.

Lemma current_profile_total_charge_witness :
  exists current_prof z_edges,
    current_profile [0; 1; 3] [1; 2; 4] 2 None = Ok (current_prof, z_edges) /\
    np_sum (map (fun c => c * ((3 - 0) / IZR 2 / ct_c)) current_prof)
    = np_sum [1; 2; 4].
Proof.
  apply (current_profile_total_charge [0; 1; 3] [1; 2; 4] 2 None 3 0 2).
  - cbn. rminmax. reflexivity.
  - cbn. rminmax. reflexivity.
  - lra.
  - reflexivity.
  - reflexivity.
  - lia.
Defined.

(** A bunch whose particles all sit at one position has slice duration 0:
    the currents are not finite, and no currents at all could add up to
    the charge once multiplied by a zero duration. *)
Lemma current_profile_single_position :
  current_profile [2] [1] 1 None = Err NotFinite.
Proof.
  unfold current_profile, fdiv, np_histogram, outer_edges, np_divide_scalar.
  reval. reflexivity.
Qed.

Lemma current_profile_single_position_counterexample :
  ~ (exists current_prof z_edges,
       current_profile [2] [1] 1 None = Ok (current_prof, z_edges) /\
       np_sum (map (fun c => c * ((2 - 2) / IZR 1 / ct_c)) current_prof)
       = np_sum [1]).
Proof.
  intros (current_prof & z_edges & _ & H).
  rewrite (np_sum_map_ext _ (fun _ => 0)) in H
    by (intros c _; unfold ct_c; field; lra).
  rewrite np_sum_map_zero in H. simpl in H. lra.
Qed.

(** *** The example of ten particles in two slices *)

Lemma linspace_0_9 : np_linspace 0 9 3 = [0; 9 / 2; 9].
Proof. unfold np_linspace. cbn. repeat f_equal; lra. Qed.

Lemma first_bin_of_ten :
  map (in_bin [0; 9 / 2; 9] 2 0) [0; 1; 2; 3; 4; 5; 6; 7; 8; 9]
  = [true; true; true; true; true; false; false; false; false; false].
Proof. unfold in_bin. cbn. repeat rtest. reflexivity. Qed.

Lemma second_bin_of_ten :
  map (in_bin [0; 9 / 2; 9] 2 1) [0; 1; 2; 3; 4; 5; 6; 7; 8; 9]
  = [false; false; false; false; false; true; true; true; true; true].
Proof. unfold in_bin. cbn. repeat rtest. reflexivity. Qed.

Lemma current_profile_ten_particles :
  current_profile [0; 1; 2; 3; 4; 5; 6; 7; 8; 9] (repeat (1 / 10 ^ 12) 10) 2 None
  = Ok ([5 / 10 ^ 12 / (9 / 2 / ct_c); 5 / 10 ^ 12 / (9 / 2 / ct_c)],
        [0; 9 / 2; 9]).
Proof.
  unfold current_profile, fdiv, np_histogram, outer_edges.
  change (np_max _) with
    (Ok (A:=R) (Rmax 0 (Rmax 1 (Rmax 2 (Rmax 3 (Rmax 4 (Rmax 5 (Rmax 6
       (Rmax 7 (Rmax 8 9)))))))))).
  change (np_min _) with
    (Ok (A:=R) (Rmin 0 (Rmin 1 (Rmin 2 (Rmin 3 (Rmin 4 (Rmin 5 (Rmin 6
       (Rmin 7 (Rmin 8 9)))))))))).
  rminmax. simpl_bind.
  rewrite (Reqb_false (IZR 2) 0) by lra. simpl_bind.
  change (Nat.eqb _ _) with true. cbn [negb].
  change (2 <? 1)%Z with false. cbn iota.
  rewrite (Reqb_false 0 9) by lra. simpl_bind. cbn [fst snd].
  change (S (Z.to_nat 2)) with 3%nat. change (Z.to_nat 2) with 2%nat.
  rewrite linspace_0_9.
  cbn [seq].
  match goal with
  | |- context [map ?f [0%nat; 1%nat]] =>
      change (map f [0%nat; 1%nat]) with [f 0%nat; f 1%nat]
  end.
  cbv beta.
  rewrite first_bin_of_ten, second_bin_of_ten.
  unfold np_divide_scalar, ct_c. reval.
  repeat f_equal; lra.
Qed.

(** C2: for z = [0, 1, ..., 9], q = [1e-12] * 10 and two slices,
    [current_profile] returns the edges [0, 4.5, 9]; the first bin of the
    histogram holds the five particles with z in 0..4, the particle at the
    global minimum z = 0 included, the second bin the five particles with
    z in 5..9; each bin carries 5e-12 C and the charge counted over both
    bins is 1e-11 C. *)
Theorem current_profile_of_ten_particles :
  exists current_prof,
    current_profile [0; 1; 2; 3; 4; 5; 6; 7; 8; 9] (repeat (1 / 10 ^ 12) 10)
      2 None
    = Ok (current_prof, [0; 9 / 2; 9]) /\
    map (in_bin [0; 9 / 2; 9] 2 0) [0; 1; 2; 3; 4; 5; 6; 7; 8; 9]
    = [true; true; true; true; true; false; false; false; false; false] /\
    map (in_bin [0; 9 / 2; 9] 2 1) [0; 1; 2; 3; 4; 5; 6; 7; 8; 9]
    = [false; false; false; false; false; true; true; true; true; true] /\
    map (fun c => c * (9 / 2 / ct_c)) current_prof
    = [5 / 10 ^ 12; 5 / 10 ^ 12] /\
    np_sum (map (fun c => c * (9 / 2 / ct_c)) current_prof) = 10 / 10 ^ 12.
Proof.
  eexists. split; [exact current_profile_ten_particles|].
  split; [exact first_bin_of_ten|]. split; [exact second_bin_of_ten|].
  assert (H : map (fun c => c * (9 / 2 / ct_c))
                [5 / 10 ^ 12 / (9 / 2 / ct_c); 5 / 10 ^ 12 / (9 / 2 / ct_c)]
              = [5 / 10 ^ 12; 5 / 10 ^ 12]).
  { cbn [map]. unfold ct_c. repeat f_equal; field. }
  split; [exact H|]. rewrite H. simpl. lra.
Qed.

Lemma current_profile_of_ten_particles_counterexample :
  ~ (exists current_prof z_edges,
       current_profile [0; 1; 2; 3; 4; 5; 6; 7; 8; 9] (repeat (1 / 10 ^ 12) 10)
         2 None
       = Ok (current_prof, z_edges) /\
       z_edges = [0; 9 / 2; 9] /\
       map (in_bin z_edges 2 0) [0; 1; 2; 3; 4; 5; 6; 7; 8; 9]
       = [false; true; true; true; true; false; false; false; false; false] /\
       map (in_bin z_edges 2 1) [0; 1; 2; 3; 4; 5; 6; 7; 8; 9]
       = [false; false; false; false; false; true; true; true; true; true] /\
       np_sum (map (fun c => c * (9 / 2 / ct_c)) current_prof) = 9 / 10 ^ 12).
Proof.
  intros (current_prof & z_edges & Hrun & -> & Hbin & _).
  rewrite first_bin_of_ten in Hbin. discriminate.
Qed.

(** ** Slice weights *)

Lemma index_ok (a : array) (i : nat) (v : R) : index a i = Ok v -> a !! i = Some v.
Proof. unfold index. destruct (a !! i); [intros [= ->]; reflexivity | discriminate]. Qed.

Lemma mask_select_ok (mask : list bool) (a a' : array) :
  mask_select mask a = Ok a' -> a' = compress mask a.
Proof.
  unfold mask_select. destruct (Nat.eqb _ _); [|discriminate].
  intros [= <-]. reflexivity.
Qed.

Lemma energy_spread_of_slice_weights (z px py pz wa slice_lims : array)
    (i : nat) (st st' : array * array) :
  energy_spread_of_slice z px py pz (WArr wa) slice_lims i st = Ok st' ->
  snd st' = slice_weight_update z wa slice_lims i (snd st).
Proof.
  unfold energy_spread_of_slice, slice_weight_update. intros H.
  inv_bind H. inv_bind H.
  rewrite (index_ok _ _ _ E), (index_ok _ _ _ E0). cbv zeta in *.
  destruct (any (slice_particle_filter z v v0)).
  - inv_bind H. inv_bind H. inv_bind H. inv_bind H. inv_bind H. inv_bind H.
    injection H as <-. cbn [snd].
    cbn [select_weight] in E5. inv_bind E5. injection E5 as <-.
    apply mask_select_ok in E7. subst. reflexivity.
  - injection H as <-. reflexivity.
Qed.

Lemma emittance_of_slice_weights (z x px : array) (py pz : option array)
    (wa : array) (disp_corrected : bool) (slice_lims : array)
    (i : nat) (st st' : array * array) :
  emittance_of_slice z x px py pz (WArr wa) disp_corrected slice_lims i st
  = Ok st' ->
  snd st' = slice_weight_update z wa slice_lims i (snd st).
Proof.
  unfold emittance_of_slice, slice_weight_update. intros H.
  inv_bind H. inv_bind H.
  rewrite (index_ok _ _ _ E), (index_ok _ _ _ E0). cbv zeta in *.
  destruct (any (slice_particle_filter z v v0)).
  - inv_bind H. inv_bind H. inv_bind H. inv_bind H. inv_bind H. inv_bind H.
    injection H as <-. cbn [snd].
    cbn [select_weight] in E5. inv_bind E5. injection E5 as <-.
    apply mask_select_ok in E7. subst. reflexivity.
  - injection H as <-. reflexivity.
Qed.

Lemma for_each_weights (body : nat -> array * array -> res (array * array))
    (upd : nat -> array -> array) (idx : list nat) (st st' : array * array) :
  (forall i s s', body i s = Ok s' -> snd s' = upd i (snd s)) ->
  for_each idx body st = Ok st' ->
  snd st' = fold_left (fun wts i => upd i wts) idx (snd st).
Proof.
  intros Hbody. revert st. induction idx as [|i idx IH]; intros st H.
  - injection H as <-. reflexivity.
  - cbn [for_each] in H. inv_bind H. cbn [fold_left].
    rewrite <- (Hbody _ _ _ E). apply IH, H.
Qed.

Lemma compress_none (mask : list bool) (a : array) :
  any mask = false -> compress mask a = [].
Proof.
  revert a. induction mask as [|b mask IH]; intros [|v a] H; try reflexivity.
  unfold any in *. cbn [existsb] in H. apply orb_false_iff in H.
  destruct H as [-> H]. cbn [compress]. apply IH, H.
Qed.

Lemma slice_weights_filled (z wa slice_lims : array) (e : nat -> R)
    (n k : nat) :
  (forall i, (i <= n)%nat -> slice_lims !! i = Some (e i)) ->
  (k <= n)%nat ->
  fold_left (fun wts i => slice_weight_update z wa slice_lims i wts)
    (seq 0 k) (np_zeros n)
  = map (fun i => np_sum (compress (slice_particle_filter z (e i) (e (S i))) wa))
      (seq 0 k)
    ++ np_zeros (n - k).
Proof.
  intros Hlims. induction k as [|k IH]; intros Hk.
  - simpl. rewrite Nat.sub_0_r. reflexivity.
  - rewrite seq_S, fold_left_app, IH by lia. cbn [fold_left Nat.add].
    unfold slice_weight_update.
    rewrite (Hlims k), Nat.add_1_r, (Hlims (S k)) by lia. cbv zeta.
    rewrite map_app. cbn [map]. rewrite <- app_assoc. cbn [app].
    replace (n - k)%nat with (S (n - S k)) by lia.
    unfold np_zeros at 1 2. cbn [repeat].
    set (pre := map _ (seq 0 k)).
    assert (Hpre : length pre = k) by (unfold pre; rewrite length_map, length_seq; reflexivity).
    destruct (any (slice_particle_filter z (e k) (e (S k)))) eqn:Hany.
    + replace k with (length pre + 0)%nat at 1 by lia.
      rewrite insert_app_r. reflexivity.
    + rewrite compress_none by assumption. reflexivity.
Qed.

Lemma np_min_le_max (z : array) (a b : R) :
  np_min z = Ok a -> np_max z = Ok b -> a <= b.
Proof.
  intros Ha Hb. destruct z as [|v z]; [discriminate|].
  pose proof (np_min_le _ _ Ha) as H1. pose proof (np_max_ge _ _ Hb) as H2.
  inversion H1; inversion H2; subst. lra.
Qed.

Lemma create_beam_slices_ok (z : array) (n_slices : Z) (len_slice : option R)
    (slice_lims : array) (n : Z) :
  create_beam_slices z n_slices len_slice = Ok (slice_lims, n) ->
  exists min_z max_z,
    np_min z = Ok min_z /\ np_max z = Ok max_z /\ (-1 <= n)%Z /\
    slice_lims = np_linspace min_z max_z (Z.to_nat (n + 1)).
Proof.
  unfold create_beam_slices. intros H.
  inv_bind H. inv_bind H. inv_bind H.
  destruct (Z.ltb_spec (v1 + 1) 0); [discriminate|].
  injection H as <- <-. exists v0, v. repeat split; try assumption. lia.
Qed.

Lemma compress_ext (f g : R -> bool) (z q : array) :
  Forall (fun v => f v = g v) z ->
  compress (map f z) q = compress (map g z) q.
Proof.
  intros H. revert q. induction H as [|v z Hv H IH]; intros [|u q];
    try reflexivity.
  cbn [map compress]. rewrite Hv, IH. reflexivity.
Qed.

(** The slices (edges[i], edges[i+1]] of at least one slice between the
    minimum and the maximum of z select every particle above the minimum
    once, and no particle at the minimum. *)
Lemma sliced_weights_total (z wa : array) (min_z max_z : R) (m : nat) :
  np_min z = Ok min_z -> np_max z = Ok max_z -> length z = length wa ->
  let e := grid min_z max_z (S m) in
  np_sum (map (fun i => np_sum (compress (slice_particle_filter z (e i) (e (S i))) wa))
            (seq 0 (S m)))
  = np_sum (compress (map (fun v => Rltb min_z v) z) wa).
Proof.
  intros Hmin Hmax Hl e.
  pose proof (np_min_le_max _ _ _ Hmin Hmax) as Hle.
  unfold slice_particle_filter.
  rewrite (np_sum_over_masks (fun i v => Rltb (e i) v && Rleb v (e (S i))) _
             (fun v => Rltb (e 0%nat) v && Rleb v (e (S m)))); [|assumption|].
  - f_equal. apply compress_ext.
    pose proof (np_max_ge _ _ Hmax) as H2.
    eapply Forall_impl; [exact H2|]. cbv beta. intros v Hv.
    unfold e. rewrite grid_0, grid_n by lia.
    rewrite (Rleb_true v max_z) by assumption. apply andb_true_r.
  - intros v u _. apply right_closed_bins.
    intros i. apply grid_step. assumption.
Qed.

Lemma slices_after_loop (z wa slice_lims : array) (n : Z) (min_z max_z : R)
    (wts : array) :
  np_min z = Ok min_z -> np_max z = Ok max_z -> length wa = length z ->
  (0 <= n)%Z ->
  slice_lims = np_linspace min_z max_z (Z.to_nat (n + 1)) ->
  wts = fold_left (fun wts i => slice_weight_update z wa slice_lims i wts)
          (seq 0 (Z.to_nat n)) (np_zeros (Z.to_nat n)) ->
  (1 <= length wts)%nat ->
  slice_lims !! 0%nat = Some min_z /\
  length slice_lims = S (length wts) /\
  (forall i a b, slice_lims !! i = Some a -> slice_lims !! S i = Some b ->
                 Rltb a min_z && Rleb min_z b = false) /\
  np_sum wts = np_sum (compress (map (fun v => Rltb min_z v) z) wa).
Proof.
  intros Hmin Hmax Hl Hn -> Hwts Hlen.
  replace (Z.to_nat (n + 1)) with (S (Z.to_nat n)) in * by lia.
  set (k := Z.to_nat n) in *.
  pose proof (np_min_le_max _ _ _ Hmin Hmax) as Hle.
  rewrite (slice_weights_filled z wa _ (grid min_z max_z k) k k) in Hwts
    by (try lia; intros i Hi; apply linspace_lookup; assumption).
  rewrite Nat.sub_diag in Hwts. unfold np_zeros in Hwts. cbn [repeat] in Hwts.
  rewrite app_nil_r in Hwts.
  assert (Hk : length wts = k).
  { rewrite Hwts, length_map, length_seq. reflexivity. }
  destruct k as [|m] eqn:Ek; [lia|].
  split; [|split; [|split]].
  - rewrite linspace_lookup by lia. rewrite grid_0. reflexivity.
  - unfold np_linspace. rewrite length_map, length_seq. lia.
  - intros i a b Ha Hb.
    assert (Hi : (S i <= S m)%nat).
    { apply lookup_lt_Some in Hb. unfold np_linspace in Hb.
      rewrite length_map, length_seq in Hb. lia. }
    rewrite linspace_lookup in Ha by lia. injection Ha as <-.
    pose proof (grid_mono min_z max_z (S m) 0 i Hle ltac:(lia)) as H0.
    rewrite grid_0 in H0. rewrite Rltb_false by assumption. reflexivity.
  - rewrite Hwts. apply sliced_weights_total; auto.
Qed.

(** *** A single value as the weight of every particle *)

Lemma relative_spread_single_value (px py pz : array) (r v : R) :
  relative_rms_energy_spread px py pz (WNum r) <> Ok v.
Proof.
  intros H. unfold relative_rms_energy_spread in H. inv_bind H. inv_bind H.
  unfold mean_energy in E0. inv_bind E0.
  unfold mean_kinetic_energy in E1. inv_bind E1. discriminate.
Qed.

Lemma emittance_single_value (x px : array) (py pz : option array) (r : R)
    (disp_corrected : bool) (v : R) :
  normalized_transverse_rms_emittance x px py pz (WNum r) disp_corrected
  = Ok v ->
  (length x < 2)%nat.
Proof.
  unfold normalized_transverse_rms_emittance.
  destruct (Nat.ltb_spec 1 (length x)) as [Hlt|Hge]; [|intros _; lia].
  intros H. inv_bind H. inv_bind H. discriminate.
Qed.

Lemma compress_nil_any (mask : list bool) (x y : array) :
  length mask = length x -> length mask = length y ->
  compress mask x = [] -> compress mask y = [].
Proof.
  revert x y. induction mask as [|b mask IH]; intros [|u x] [|v y] Hx Hy H;
    try reflexivity; simpl in Hx, Hy; try discriminate.
  cbn [compress] in *. destruct b; [discriminate|].
  apply (IH x); [lia | lia | exact H].
Qed.

(** A selection of exactly one particle carries the weight [r] when every
    particle has the weight [r]. *)
Lemma compress_single (mask : list bool) (x : array) (r : R) :
  length mask = length x -> any mask = true ->
  (length (compress mask x) < 2)%nat ->
  np_sum (compress mask (repeat r (length mask))) = r.
Proof.
  revert x. induction mask as [|b mask IH]; intros [|u x] Hx Hany Hlen;
    simpl in Hx; try discriminate.
  cbn [length repeat compress] in *. destruct b.
  - cbn [length] in Hlen.
    assert (Hnil : compress mask x = []).
    { destruct (compress mask x); [reflexivity | simpl in Hlen; lia]. }
    rewrite (compress_nil_any mask x (repeat r (length mask)));
      [simpl; lra | lia | rewrite repeat_length; reflexivity | exact Hnil].
  - apply (IH x); [lia | exact Hany | exact Hlen].
Qed.

Lemma filter_length (z : array) (a b : R) :
  length (slice_particle_filter z a b) = length z.
Proof. unfold slice_particle_filter. apply length_map. Qed.

Lemma mask_select_length (mask : list bool) (a a' : array) :
  mask_select mask a = Ok a' -> length mask = length a.
Proof.
  unfold mask_select. destruct (Nat.eqb_spec (length mask) (length a));
    [auto | discriminate].
Qed.

(** What a pass of the slice loops does to the slice weights, for
    per-particle weights and for a single value alike. *)
Lemma energy_spread_of_slice_any_weight (z px py pz : array) (w : weight)
    (slice_lims : array) (i : nat) (st st' : array * array) :
  energy_spread_of_slice z px py pz w slice_lims i st = Ok st' ->
  snd st'
  = slice_weight_update z (uniform_weights (length z) w) slice_lims i (snd st).
Proof.
  destruct w as [r|wa]; [|apply energy_spread_of_slice_weights].
  unfold energy_spread_of_slice, slice_weight_update. intros H.
  inv_bind H. inv_bind H.
  rewrite (index_ok _ _ _ E), (index_ok _ _ _ E0). cbv zeta in *.
  destruct (any (slice_particle_filter z v v0)).
  - exfalso. repeat inv_bind H.
    cbn [select_weight] in E5. injection E5 as <-.
    exact (relative_spread_single_value _ _ _ _ _ E6).
  - injection H as <-. reflexivity.
Qed.

Lemma emittance_of_slice_any_weight (z x px : array) (py pz : option array)
    (w : weight) (disp_corrected : bool) (slice_lims : array)
    (i : nat) (st st' : array * array) :
  emittance_of_slice z x px py pz w disp_corrected slice_lims i st = Ok st' ->
  snd st'
  = slice_weight_update z (uniform_weights (length z) w) slice_lims i (snd st).
Proof.
  destruct w as [r|wa]; [|apply emittance_of_slice_weights].
  unfold emittance_of_slice, slice_weight_update. intros H.
  inv_bind H. inv_bind H.
  rewrite (index_ok _ _ _ E), (index_ok _ _ _ E0). cbv zeta in *.
  destruct (any (slice_particle_filter z v v0)) eqn:Hany.
  - repeat inv_bind H. injection H as <-. cbn [snd].
    cbn [select_weight] in E5. injection E5 as <-. cbn [np_sum_w].
    pose proof (mask_select_length _ _ _ E1) as Hx.
    apply mask_select_ok in E1. subst.
    apply emittance_single_value in E6.
    cbn [uniform_weights].
    rewrite <- (filter_length z v v0).
    rewrite (compress_single _ x r Hx Hany E6). reflexivity.
  - injection H as <-. reflexivity.
Qed.

Lemma uniform_weights_length (n : nat) (w : weight) :
  match w with WArr wa => length wa = n | WNum _ => True end ->
  length (uniform_weights n w) = n.
Proof. destruct w as [r|wa]; cbn; [intros _; apply repeat_length | auto]. Qed.

(** C6: with weights that are per-particle weights of the length of z or
    a single value counted for every particle, and at least one
    slice, what the two per-slice functions (relative RMS slice energy
    spread, slice emittance) return is such that edges[0] = min(z), no
    slice (edges[i], edges[i+1]] contains a particle at min(z), and the
    slice weights add up to the weight of the particles with z > min(z). *)
Theorem slice_weights_partition
    (z x px py pz : array) (opy opz : option array) (w : weight)
    (disp_corrected : bool) (n_slices : Z) (len_slice : option R)
    (r : res (array * array * array)) (vals wts edges : array) :
  match w with WArr wa => length wa = length z | WNum _ => True end ->
  r = relative_rms_slice_energy_spread z px py pz w n_slices len_slice
  \/ r = normalized_transverse_rms_slice_emittance z x px opy opz w
           disp_corrected n_slices len_slice ->
  r = Ok (vals, wts, edges) ->
  (1 <= length wts)%nat ->
  exists min_z,
    np_min z = Ok min_z /\
    edges !! 0%nat = Some min_z /\
    length edges = S (length wts) /\
    (forall i a b, edges !! i = Some a -> edges !! S i = Some b ->
                   Rltb a min_z && Rleb min_z b = false) /\
    np_sum wts
    = np_sum (compress (map (fun v => Rltb min_z v) z)
                (uniform_weights (length z) w)).
Proof.
  intros Hl Hr Hok Hlen. subst r.
  apply uniform_weights_length in Hl.
  destruct Hr as [Hr | Hr]; symmetry in Hr.
  - unfold relative_rms_slice_energy_spread in Hr. inv_bind Hr.
    destruct v as [slice_lims n]. cbn [fst snd] in Hr.
    destruct (Z.ltb_spec n 0); [discriminate|].
    inv_bind Hr. injection Hr as <- <- <-.
    destruct (create_beam_slices_ok _ _ _ _ _ E)
      as (min_z & max_z & Hmin & Hmax & _ & Hlims).
    exists min_z. split; [assumption|].
    eapply slices_after_loop; eauto.
    eapply for_each_weights in E0;
      [| intros i s s'; apply energy_spread_of_slice_any_weight].
    exact E0.
  - unfold normalized_transverse_rms_slice_emittance in Hr. inv_bind Hr.
    destruct v as [slice_lims n]. cbn [fst snd] in Hr.
    destruct (Z.ltb_spec n 0); [discriminate|].
    inv_bind Hr. injection Hr as <- <- <-.
    destruct (create_beam_slices_ok _ _ _ _ _ E)
      as (min_z & max_z & Hmin & Hmax & _ & Hlims).
    exists min_z. split; [assumption|].
    eapply slices_after_loop; eauto.
    eapply for_each_weights in E0;
      [| intros i s s'; apply emittance_of_slice_any_weight].
    exact E0.
Qed.

Lemma energy_spread_at_rest (w : R) :
  0 < w -> relative_rms_energy_spread [0] [0] [0] (WArr [w]) = Ok 0.
Proof.
  intros Hw.
  unfold relative_rms_energy_spread, rms_energy_spread, mean_energy,
    mean_kinetic_energy, particle_energy, momentum_norm, np_sqrt_arr.
  reval.
  rsqrt (1 + 0² + 0² + 0²) 1. rsqrt (0² + 0² + 0²) 0.
  unfold weighted_std, weighted_mean, np_sqrt, fdiv.
  reval.
  match goal with |- context [Rltb ?a 0] => replace a with 0 by (field; lra) end.
  match goal with |- context [Rsqr ?a] => replace a with 0 by (field; lra) end.
  rewrite (Rltb_false 0 0) by lra. simpl_bind.
  rewrite Rsqr_0, !sqrt_0.
  rewrite (Reqb_false (1 + 0) 0) by lra. f_equal. lra.
Qed.

Lemma linspace_0_2 : np_linspace 0 2 3 = [0; 1; 2].
Proof. unfold np_linspace. cbn. repeat f_equal; lra. Qed.

Lemma slices_example :
  relative_rms_slice_energy_spread [0; 1; 2] [0; 0; 0] [0; 0; 0] [0; 0; 0]
    (WArr [1; 2; 3]) 2 None
  = Ok ([0; 0], [2 + 0; 3 + 0], [0; 1; 2]).
Proof.
  unfold relative_rms_slice_energy_spread, create_beam_slices.
  change (np_max _) with (Ok (A:=R) (Rmax 0 (Rmax 1 2))).
  change (np_min _) with (Ok (A:=R) (Rmin 0 (Rmin 1 2))).
  rminmax. simpl_bind.
  change (2 + 1 <? 0)%Z with false. cbn iota. simpl_bind. cbn [fst snd].
  change (2 <? 0)%Z with false. cbn iota.
  change (Z.to_nat (2 + 1)) with 3%nat. change (Z.to_nat 2) with 2%nat.
  rewrite linspace_0_2.
  unfold energy_spread_of_slice.
  repeat (cbn -[relative_rms_energy_spread]; try rtest).
  rewrite !energy_spread_at_rest by lra.
  reflexivity.
Qed.

(** Three particles with the single weight 3 in two slices: each of the
    two slices holds one particle. *)
Lemma slices_single_value_example :
  normalized_transverse_rms_slice_emittance [0; 1; 2] [5; 6; 7] [1; 1; 1]
    None None (WNum 3) false 2 None
  = Ok ([0; 0], [3; 3], [0; 1; 2]).
Proof.
  unfold normalized_transverse_rms_slice_emittance, create_beam_slices.
  change (np_max _) with (Ok (A:=R) (Rmax 0 (Rmax 1 2))).
  change (np_min _) with (Ok (A:=R) (Rmin 0 (Rmin 1 2))).
  rminmax. simpl_bind.
  change (2 + 1 <? 0)%Z with false. cbn iota. simpl_bind. cbn [fst snd].
  change (2 <? 0)%Z with false. cbn iota.
  change (Z.to_nat (2 + 1)) with 3%nat. change (Z.to_nat 2) with 2%nat.
  rewrite linspace_0_2.
  unfold emittance_of_slice.
  repeat (cbn; try rtest).
  reflexivity.
Qed.

Lemma slice_weights_partition_witness :
  (exists min_z,
     np_min [0; 1; 2] = Ok min_z /\
     [0; 1; 2] !! 0%nat = Some min_z /\
     length [0; 1; 2] = S (length [2 + 0; 3 + 0]) /\
     (forall i a b, [0; 1; 2] !! i = Some a -> [0; 1; 2] !! S i = Some b ->
                    Rltb a min_z && Rleb min_z b = false) /\
     np_sum [2 + 0; 3 + 0]
     = np_sum (compress (map (fun v => Rltb min_z v) [0; 1; 2])
                 (uniform_weights (length [0; 1; 2]) (WArr [1; 2; 3])))) /\
  (exists min_z,
     np_min [0; 1; 2] = Ok min_z /\
     [0; 1; 2] !! 0%nat = Some min_z /\
     length [0; 1; 2] = S (length [3; 3]) /\
     (forall i a b, [0; 1; 2] !! i = Some a -> [0; 1; 2] !! S i = Some b ->
                    Rltb a min_z && Rleb min_z b = false) /\
     np_sum [3; 3]
     = np_sum (compress (map (fun v => Rltb min_z v) [0; 1; 2])
                 (uniform_weights (length [0; 1; 2]) (WNum 3)))).
Proof.
  split.
  - apply (slice_weights_partition [0; 1; 2] [] [0; 0; 0] [0; 0; 0] [0; 0; 0]
             None None (WArr [1; 2; 3]) false 2 None
             (relative_rms_slice_energy_spread [0; 1; 2] [0; 0; 0] [0; 0; 0]
                [0; 0; 0] (WArr [1; 2; 3]) 2 None)
             [0; 0]).
    + reflexivity.
    + left. reflexivity.
    + exact slices_example.
    + simpl. lia.
  - apply (slice_weights_partition [0; 1; 2] [5; 6; 7] [1; 1; 1] [] []
             None None (WNum 3) false 2 None
             (normalized_transverse_rms_slice_emittance [0; 1; 2] [5; 6; 7]
                [1; 1; 1] None None (WNum 3) false 2 None)
             [0; 0]).
    + exact I.
    + right. reflexivity.
    + exact slices_single_value_example.
    + simpl. lia.
Defined.

Lemma slice_weights_no_slices_counterexample :
  exists vals wts edges,
    relative_rms_slice_energy_spread [0; 1] [0; 0] [0; 0] [0; 0]
      (WArr [1; 1]) 0 None
    = Ok (vals, wts, edges) /\
    np_min [0; 1] = Ok 0 /\
    np_sum wts <> np_sum (compress (map (fun v => Rltb 0 v) [0; 1]) [1; 1]).
Proof.
  exists [], [], (np_linspace 0 1 1).
  split; [|split].
  - unfold relative_rms_slice_energy_spread, create_beam_slices.
    change (np_max _) with (Ok (A:=R) (Rmax 0 1)).
    change (np_min _) with (Ok (A:=R) (Rmin 0 1)).
    rminmax. reflexivity.
  - cbn. rminmax. reflexivity.
  - cbn. rewrite (Rltb_false 0 0), (Rltb_true 0 1) by lra. simpl. lra.
Qed.

(** ** Twiss parameters and the arrays of the caller *)

Lemma touches_ret {A : Type} (L : list loc) (a : A) : touches_only L (mret a).
Proof. intros h l _. reflexivity. Qed.

Lemma touches_lift {A : Type} (L : list loc) (r : res A) : touches_only L (lift r).
Proof. intros h l _. reflexivity. Qed.

Lemma touches_load (L : list loc) (x : loc) : touches_only L (load x).
Proof. intros h l _. reflexivity. Qed.

Lemma touches_store (L : list loc) (x : loc) (a : array) :
  x ∈ L -> touches_only L (store x a).
Proof.
  intros Hx h l Hl. cbn. apply lookup_insert_ne. intros ->. contradiction.
Qed.

Lemma touches_bind {A B : Type} (L : list loc) (m : M A) (f : A -> M B) :
  touches_only L m -> (forall a, touches_only L (f a)) ->
  touches_only L (m ≫= f).
Proof.
  intros Hm Hf h l Hl. unfold mbind, M_bind.
  specialize (Hm h l Hl). destruct (m h) as [h1 [a|e]]; cbn [fst] in *.
  - rewrite (Hf a h1 l Hl). exact Hm.
  - exact Hm.
Qed.

Lemma touches_load_weight (L : list loc) (w : arg) :
  touches_only L (load_weight w).
Proof.
  destruct w as [r|l]; cbn [load_weight].
  - apply touches_ret.
  - apply touches_bind; [apply touches_load | intros; apply touches_ret].
Qed.

Lemma touches_load_opt (L : list loc) (py : option arg) :
  touches_only L (load_opt py).
Proof.
  destruct py as [[r|l]|]; cbn [load_opt]; try apply touches_ret.
  apply touches_bind; [apply touches_load | intros; apply touches_ret].
Qed.

Lemma touches_isub_scalar (L : list loc) (x : loc) (s : R) :
  x ∈ L -> touches_only L (isub_scalar x s).
Proof.
  intros Hx. apply touches_bind; [apply touches_load|].
  intros a. apply touches_store, Hx.
Qed.

Lemma touches_isub (L : list loc) (x : loc) (b : array) :
  x ∈ L -> touches_only L (isub x b).
Proof.
  intros Hx. apply touches_bind; [apply touches_load|]. intros a.
  apply touches_bind; [apply touches_lift|]. intros a'.
  apply touches_store, Hx.
Qed.

Ltac frame_step :=
  first
    [ apply touches_ret | apply touches_lift | apply touches_load
    | apply touches_load_weight | apply touches_load_opt
    | apply touches_isub_scalar; set_solver
    | apply touches_isub; set_solver
    | apply touches_bind; [| intros ?]
    | match goal with
      | |- touches_only _ (if ?b then _ else _) => destruct b
      end ].

Lemma twiss_parameters_frame (x px pz : loc) (py : option arg) (w : arg)
    (emitt : string) (disp_corrected : bool) :
  touches_only (if String.eqb emitt "ph" then [x; px] else [x])
    (twiss_parameters x px pz py w emitt disp_corrected).
Proof.
  unfold twiss_parameters.
  destruct (String.eqb emitt "ph"); [repeat frame_step|].
  destruct (String.eqb emitt "tr"); repeat frame_step.
Qed.

Lemma M_bind_ok {A B : Type} (m : M A) (f : A -> M B) (h h' : heap) (b : B) :
  (m ≫= f) h = (h', Ok b) ->
  exists a h1, m h = (h1, Ok a) /\ f a h1 = (h', Ok b).
Proof.
  unfold mbind, M_bind. destruct (m h) as [h1 [a|e]]; intros H.
  - exists a, h1. auto.
  - discriminate.
Qed.

Lemma bind_lift_ok {A B : Type} (r : res A) (f : A -> M B) (h h' : heap) (b : B) :
  (lift r ≫= f) h = (h', Ok b) -> exists a, r = Ok a /\ f a h = (h', Ok b).
Proof.
  intros H. apply M_bind_ok in H. destruct H as (a & h1 & Hm & Hf).
  injection Hm as <- ->. eauto.
Qed.

Lemma bind_load_ok {B : Type} (l : loc) (f : array -> M B) (h h' : heap) (b : B) :
  (load l ≫= f) h = (h', Ok b) ->
  exists a, h !! l = Some a /\ f a h = (h', Ok b).
Proof.
  intros H. apply M_bind_ok in H. destruct H as (a & h1 & Hm & Hf).
  unfold load in Hm. destruct (h !! l) as [a'|]; [|discriminate].
  injection Hm as <- <-. eauto.
Qed.

Lemma load_weight_heap (w : arg) (h h1 : heap) (r : res weight) :
  load_weight w h = (h1, r) -> h1 = h.
Proof.
  destruct w as [v|l]; cbn.
  - intros [= <- _]. reflexivity.
  - unfold mbind, M_bind, load. destruct (h !! l); intros [= <- _]; reflexivity.
Qed.

Lemma load_opt_heap (py : option arg) (h h1 : heap) (r : res (option array)) :
  load_opt py h = (h1, r) -> h1 = h.
Proof.
  destruct py as [[v|l]|]; cbn; try (intros [= <- _]; reflexivity).
  unfold mbind, M_bind, load. destruct (h !! l); intros [= <- _]; reflexivity.
Qed.

Lemma bind_load_weight_ok {B : Type} (w : arg) (f : weight -> M B)
    (h h' : heap) (b : B) :
  (load_weight w ≫= f) h = (h', Ok b) ->
  exists wv, load_weight w h = (h, Ok wv) /\ f wv h = (h', Ok b).
Proof.
  intros H. apply M_bind_ok in H. destruct H as (a & h1 & Hm & Hf).
  pose proof (load_weight_heap _ _ _ _ Hm) as ->. eauto.
Qed.

Lemma bind_load_opt_ok {B : Type} (py : option arg) (f : option array -> M B)
    (h h' : heap) (b : B) :
  (load_opt py ≫= f) h = (h', Ok b) ->
  exists pyv, load_opt py h = (h, Ok pyv) /\ f pyv h = (h', Ok b).
Proof.
  intros H. apply M_bind_ok in H. destruct H as (a & h1 & Hm & Hf).
  pose proof (load_opt_heap _ _ _ _ Hm) as ->. eauto.
Qed.

Lemma bind_isub_scalar_ok {B : Type} (x : loc) (s : R) (f : unit -> M B)
    (h h' : heap) (b : B) :
  (isub_scalar x s ≫= f) h = (h', Ok b) ->
  exists a, h !! x = Some a /\
            f tt (<[x := np_subtract_scalar a s]> h) = (h', Ok b).
Proof.
  intros H. apply M_bind_ok in H. destruct H as (u & h1 & Hm & Hf).
  unfold isub_scalar in Hm. apply bind_load_ok in Hm.
  destruct Hm as (a & Ha & Hs). injection Hs as <- <-. eauto.
Qed.


Lemma load_weight_insert (w : arg) (x : loc) (a : array) (h : heap) :
  w <> ARef x ->
  snd (load_weight w (<[x := a]> h)) = snd (load_weight w h).
Proof.
  intros Hne. destruct w as [v|l]; cbn; [reflexivity|].
  unfold mbind, M_bind, load.
  rewrite lookup_insert_ne by (intros ->; apply Hne; reflexivity).
  destruct (h !! l); reflexivity.
Qed.

Lemma load_opt_insert (py : option arg) (x : loc) (a : array) (h : heap) :
  py <> Some (ARef x) ->
  snd (load_opt py (<[x := a]> h)) = snd (load_opt py h).
Proof.
  intros Hne. destruct py as [[v|l]|]; cbn; try reflexivity.
  unfold mbind, M_bind, load.
  rewrite lookup_insert_ne by (intros ->; apply Hne; reflexivity).
  destruct (h !! l); reflexivity.
Qed.

(** what a second read of the weights or of py gives after updates of
    other arrays *)
Ltac same_read E0 E :=
  apply (f_equal snd) in E0;
  rewrite ?load_weight_insert, ?load_opt_insert in E0 by assumption;
  rewrite E in E0; cbn [snd] in E0; injection E0 as <-.

Ltac inv_run H :=
  match type of H with
  | (load_weight _ ≫= _) _ = (_, Ok _) =>
      let wv := fresh "wv" in let E := fresh "Ew" in
      apply bind_load_weight_ok in H; destruct H as (wv & E & H)
  | (load_opt _ ≫= _) _ = (_, Ok _) =>
      let pyv := fresh "pyv" in let E := fresh "Ey" in
      apply bind_load_opt_ok in H; destruct H as (pyv & E & H)
  | (load _ ≫= _) _ = (_, Ok _) =>
      let a := fresh "a" in let E := fresh "El" in
      apply bind_load_ok in H; destruct H as (a & E & H)
  | (lift _ ≫= _) _ = (_, Ok _) =>
      let a := fresh "v" in let E := fresh "E" in
      apply bind_lift_ok in H; destruct H as (a & E & H)
  | (isub_scalar _ _ ≫= _) _ = (_, Ok _) =>
      let a := fresh "a" in let E := fresh "Es" in
      apply bind_isub_scalar_ok in H; destruct H as (a & E & H)
  end; cbv beta in H.




Lemma example_beam_x : example_beam !! 1%positive = Some [2; 0; 0; 2].
Proof. reflexivity. Qed.
Lemma example_beam_px : example_beam !! 2%positive = Some [3; -3; 6; -6].
Proof. reflexivity. Qed.
Lemma example_beam_py : example_beam !! 3%positive = Some [0; 0; 0; 0].
Proof. reflexivity. Qed.
Lemma example_beam_pz : example_beam !! 4%positive = Some [4; 4; 8; 8].
Proof. reflexivity. Qed.
Lemma example_beam_w : example_beam !! 5%positive = Some [1; 1; 2; 2].
Proof. reflexivity. Qed.

(** *** A run on four particles *)

Lemma xp_example :
  np_divide [3; -3; 6; -6] [4; 4; 8; 8] = Ok [3 / 4; -3 / 4; 6 / 8; -6 / 8].
Proof. unfold np_divide. reval. reflexivity. Qed.

Lemma trace_emittance_example (py : option array) :
  transverse_trace_space_rms_emittance [2; 0; 0; 2] [3; -3; 6; -6] py
    (Some [4; 4; 8; 8]) (WArr [1; 1; 2; 2]) false
  = Ok (sqrt (162 / 169)).
Proof.
  unfold transverse_trace_space_rms_emittance.
  cbn [length Nat.ltb Nat.leb]. simpl_bind. rewrite xp_example. simpl_bind.
  cbn [fst snd]. unfold np_cov, np_abs. 
  reval. unfold np_sqrt, np_linalg_det. cbn [m00 m01 m10 m11].
  match goal with |- context [Rltb ?d 0] => replace d with (162 / 169) by (field; lra) end.
  rewrite Rltb_false by lra. reflexivity.
Qed.

Lemma run_bind {A B : Type} (m : M A) (f : A -> M B) (h h1 : heap) (a : A) :
  m h = (h1, Ok a) -> (m ≫= f) h = f a h1.
Proof. intros H. unfold mbind, M_bind. rewrite H. reflexivity. Qed.

Lemma run_bind_err {A B : Type} (m : M A) (f : A -> M B) (h h1 : heap) (e : error) :
  m h = (h1, Err e) -> (m ≫= f) h = (h1, Err e).
Proof. intros H. unfold mbind, M_bind. rewrite H. reflexivity. Qed.

Lemma run_load (l : loc) (h : heap) (a : array) :
  h !! l = Some a -> load l h = (h, Ok a).
Proof. intros H. unfold load. rewrite H. reflexivity. Qed.

Lemma run_load_weight (l : loc) (h : heap) (a : array) :
  h !! l = Some a -> load_weight (ARef l) h = (h, Ok (WArr a)).
Proof.
  intros H. cbn [load_weight]. rewrite (run_bind _ _ _ _ _ (run_load _ _ _ H)).
  reflexivity.
Qed.

Lemma run_isub_scalar (x : loc) (s : R) (h : heap) (a : array) :
  h !! x = Some a ->
  isub_scalar x s h = (<[x := np_subtract_scalar a s]> h, Ok tt).
Proof.
  intros H. unfold isub_scalar. rewrite (run_bind _ _ _ _ _ (run_load _ _ _ H)).
  reflexivity.
Qed.

Lemma fdiv_nonzero (a b : R) : b <> 0 -> fdiv a b = Ok (a / b).
Proof. intros H. unfold fdiv. rewrite (Reqb_false _ _ H). reflexivity. Qed.

(** A run of the trace-space branch on four particles. *)
Lemma twiss_parameters_example (h : heap) (x px pz w : loc) (py : option arg)
    (pyv : option array) :
  h !! x = Some [2; 0; 0; 2] -> h !! px = Some [3; -3; 6; -6] ->
  h !! pz = Some [4; 4; 8; 8] -> h !! w = Some [1; 1; 2; 2] ->
  load_opt py h = (h, Ok pyv) -> w <> x ->
  exists abg,
    twiss_parameters x px pz py (ARef w) "tr" false h
    = (<[x := [1; -1; -1; 1]]> h, Ok abg).
Proof.
  intros Hx Hpx Hpz Hw Hpy Hwx. unfold twiss_parameters.
  change (String.eqb "tr" "ph") with false. change (String.eqb "tr" "tr") with true.
  cbn iota.
  rewrite (run_bind _ _ _ _ _ (run_load _ _ _ Hx)).
  rewrite (run_bind _ _ _ _ _ (run_load _ _ _ Hpx)).
  rewrite (run_bind _ _ _ _ _ Hpy).
  rewrite (run_bind _ _ _ _ _ (run_load _ _ _ Hpz)).
  rewrite (run_bind _ _ _ _ _ (run_load_weight _ _ _ Hw)).
  rewrite trace_emittance_example, xp_example.
  rewrite (run_bind (lift (Ok _)) _ h h _ eq_refl).
  rewrite (run_bind (lift (Ok _)) _ h h _ eq_refl).
  assert (Hxavg : np_average [2; 0; 0; 2] (WArr [1; 1; 2; 2]) = Ok 1).
  { reval. f_equal. lra. }
  assert (Hxpavg : np_average [3 / 4; -3 / 4; 6 / 8; -6 / 8] (WArr [1; 1; 2; 2]) = Ok 0).
  { reval. f_equal. lra. }
  rewrite Hxavg, Hxpavg.
  rewrite (run_bind (lift (Ok _)) _ h h _ eq_refl).
  rewrite (run_bind (lift (Ok _)) _ h h _ eq_refl).
  rewrite (run_bind _ _ _ _ _ (run_isub_scalar _ _ _ _ Hx)).
  replace (np_subtract_scalar [2; 0; 0; 2] 1) with [1; -1; -1; 1]
    by (cbn; repeat f_equal; lra).
  set (h' := <[x := [1; -1; -1; 1]]> h).
  assert (Hx' : h' !! x = Some [1; -1; -1; 1]) by apply lookup_insert_eq.
  assert (Hw' : h' !! w = Some [1; 1; 2; 2]).
  { unfold h'. rewrite lookup_insert_ne by congruence. exact Hw. }
  cbv zeta.
  rewrite (run_bind (mret _) _ h' h' _ eq_refl).
  rewrite (run_bind _ _ _ _ _ (run_load _ _ _ Hx')).
  rewrite (run_bind _ _ _ _ _ (run_load_weight _ _ _ Hw')).
  assert (Hx2 : np_average (map (fun v => v ^ 2) [1; -1; -1; 1]) (WArr [1; 1; 2; 2]) = Ok 1).
  { reval. f_equal. lra. }
  rewrite Hx2. rewrite (run_bind (lift (Ok _)) _ h' h' _ eq_refl).
  assert (Hem : sqrt (162 / 169) <> 0).
  { apply Rgt_not_eq, sqrt_lt_R0. lra. }
  rewrite (fdiv_nonzero 1 _ Hem).
  rewrite (run_bind (lift (Ok _)) _ h' h' _ eq_refl).
  assert (Hmul : np_multiply [1; -1; -1; 1]
                   (np_subtract_scalar [3 / 4; -3 / 4; 6 / 8; -6 / 8] 0)
                 = Ok [3 / 4; 3 / 4; - (3 / 4); - (3 / 4)]).
  { cbn. repeat f_equal; lra. }
  rewrite Hmul. rewrite (run_bind (lift (Ok _)) _ h' h' _ eq_refl).
  assert (Havg : np_average [3 / 4; 3 / 4; - (3 / 4); - (3 / 4)] (WArr [1; 1; 2; 2])
                 = Ok (- (1 / 4))).
  { reval. f_equal. lra. }
  rewrite Havg. rewrite (run_bind (lift (Ok _)) _ h' h' _ eq_refl).
  rewrite (fdiv_nonzero _ _ Hem).
  rewrite (run_bind (lift (Ok _)) _ h' h' _ eq_refl).
  assert (Hb : 1 / sqrt (162 / 169) <> 0).
  { unfold Rdiv. rewrite Rmult_1_l. apply Rinv_neq_0_compat, Hem. }
  rewrite (fdiv_nonzero _ _ Hb).
  rewrite (run_bind (lift (Ok _)) _ h' h' _ eq_refl).
  eexists. reflexivity.
Qed.

Lemma example_beam_run :
  exists abg,
    twiss_parameters 1%positive 2%positive 4%positive (Some (ARef 3%positive))
      (ARef 5%positive) "tr" false example_beam
    = (<[1%positive := [1; -1; -1; 1]]> example_beam, Ok abg).
Proof.
  apply (twiss_parameters_example example_beam 1%positive 2%positive 4%positive
           5%positive (Some (ARef 3%positive)) (Some [0; 0; 0; 0])).
  - exact example_beam_x.
  - exact example_beam_px.
  - exact example_beam_pz.
  - exact example_beam_w.
  - reflexivity.
  - discriminate.
Qed.


(** ** Twiss parameters with dispersion removed beforehand *)

(** With the default weight 1 the trace-space branch never returns: numpy
    refuses a single value as the weights of an array. *)
Lemma twiss_parameters_default_weight (x px pz : loc) (py : option arg)
    (h h' : heap) (abg : R * R * R) :
  twiss_parameters x px pz py (ANum 1) "tr" false h <> (h', Ok abg).
Proof.
  unfold twiss_parameters.
  change (String.eqb "tr" "ph") with false. change (String.eqb "tr" "tr") with true.
  cbn iota. intros H. repeat inv_run H.
  cbn in Ew. injection Ew as <-. discriminate.
Qed.

Lemma trace_emittance_default_weight (x px : array) (py : option array)
    (pz xp : array) :
  (1 < length x)%nat -> np_divide px pz = Ok xp ->
  transverse_trace_space_rms_emittance x px py (Some pz) (WNum 1) false
  = Err IndexError.
Proof.
  intros Hl Hxp. unfold transverse_trace_space_rms_emittance.
  replace (Nat.ltb 1 (length x)) with true by (symmetry; apply Nat.ltb_lt, Hl).
  simpl_bind. rewrite Hxp. reflexivity.
Qed.

Ltac rlist :=
  repeat (apply (f_equal2 (@cons R)); [first [lra | field] |]); reflexivity.

Lemma run_alloc (a : array) (h : heap) :
  alloc a h = (<[fresh (dom h) := a]> h, Ok (fresh (dom h))).
Proof. reflexivity. Qed.

Lemma fresh_lookup (h : heap) : h !! fresh (dom h) = None.
Proof. apply not_elem_of_dom, is_fresh. Qed.

Lemma gamma_example :
  momentum_norm [3; -3; 6; -6] (Some [0; 0; 0; 0]) (Some [4; 4; 8; 8])
  = Ok [5; 5; 10; 10].
Proof.
  unfold momentum_norm, np_sqrt_arr. reval.
  rsqrt (3² + 0² + 4²) 5. rsqrt ((-3)² + 0² + 4²) 5.
  rsqrt (6² + 0² + 8²) 10. rsqrt ((-6)² + 0² + 8²) 10.
  reflexivity.
Qed.

Lemma dgamma_example :
  relative_deviation [5; 5; 10; 10] (25 / 3)
  = Ok [-2 / 5; -2 / 5; 1 / 5; 1 / 5].
Proof.
  unfold relative_deviation, np_divide_scalar. reval.
  f_equal. rlist.
Qed.

Lemma polyfit_x_example :
  np_polyfit1 [-2 / 5; -2 / 5; 1 / 5; 1 / 5] [2; 0; 0; 2]
    (Some (WArr [1; 1; 2; 2]))
  = Ok (0, 1).
Proof.
  unfold np_polyfit1, moment, moment_y. reval.
  f_equal. f_equal; unfold Rsqr; field.
Qed.

Lemma polyfit_xp_example :
  np_polyfit1 [-2 / 5; -2 / 5; 1 / 5; 1 / 5] [3 / 4; -3 / 4; 6 / 8; -6 / 8]
    (Some (WArr [1; 1; 2; 2]))
  = Ok (0, 0).
Proof.
  unfold np_polyfit1, moment, moment_y. reval.
  f_equal. f_equal; unfold Rsqr; field.
Qed.

Lemma twiss_parameters_corrected_example :
  exists l1 l2 : loc,
    let h2 := <[l2 := [3; -3; 6; -6]]> (<[l1 := [2; 0; 0; 2]]> example_beam) in
    twiss_parameters_corrected 1%positive 2%positive 3%positive 4%positive
      (ARef 5%positive) example_beam
    = twiss_parameters l1 l2 4%positive (Some (ARef 5%positive)) (ANum 1)
        "tr" false h2 /\
    h2 !! l1 = Some [2; 0; 0; 2] /\ h2 !! l2 = Some [3; -3; 6; -6] /\
    h2 !! 3%positive = Some [0; 0; 0; 0] /\
    h2 !! 4%positive = Some [4; 4; 8; 8] /\
    h2 !! 5%positive = Some [1; 1; 2; 2] /\
    5%positive <> l1.
Proof.
  set (l1 := fresh (dom example_beam)).
  set (h1 := <[l1 := [2; 0; 0; 2]]> example_beam).
  set (l2 := fresh (dom h1)).
  exists l1, l2. cbv zeta.
  pose proof (fresh_lookup example_beam) as Hl1. fold l1 in Hl1.
  pose proof (fresh_lookup h1) as Hl2. fold l2 in Hl2.
  assert (Hne : forall l a, example_beam !! l = Some a -> l <> l1 /\ l <> l2).
  { intros l a Hl. split; intros ->.
    - congruence.
    - unfold h1 in Hl2. destruct (decide (l1 = l2)) as [<-|Hd].
      + congruence.
      + rewrite lookup_insert_ne in Hl2 by assumption. congruence. }
  assert (H12 : l1 <> l2).
  { intros <-. unfold h1 in Hl2. rewrite lookup_insert_eq in Hl2. discriminate. }
  split; [|].
  - unfold twiss_parameters_corrected.
    rewrite (run_bind _ _ _ _ _ (run_load _ _ _ example_beam_x)).
    rewrite (run_bind _ _ _ _ _ (run_load _ _ _ example_beam_px)).
    rewrite (run_bind _ _ _ _ _ (run_load _ _ _ example_beam_py)).
    rewrite (run_bind _ _ _ _ _ (run_load _ _ _ example_beam_pz)).
    rewrite (run_bind _ _ _ _ _ (run_load_weight _ _ _ example_beam_w)).
    rewrite gamma_example.
    rewrite (run_bind (lift (Ok _)) _ _ _ _ eq_refl).
    assert (Hga : np_average [5; 5; 10; 10] (WArr [1; 1; 2; 2]) = Ok (25 / 3)).
    { reval. f_equal. lra. }
    assert (Hxa : np_average [2; 0; 0; 2] (WArr [1; 1; 2; 2]) = Ok 1).
    { reval. f_equal. lra. }
    rewrite Hga, Hxa.
    rewrite (run_bind (lift (Ok _)) _ _ _ _ eq_refl).
    rewrite (run_bind (lift (Ok _)) _ _ _ _ eq_refl).
    rewrite dgamma_example.
    rewrite (run_bind (lift (Ok _)) _ _ _ _ eq_refl).
    rewrite polyfit_x_example.
    rewrite (run_bind (lift (Ok _)) _ _ _ _ eq_refl).
    cbv zeta. cbn [fst].
    assert (Hx1 : np_subtract [2; 0; 0; 2]
                    (np_scale 0 [-2 / 5; -2 / 5; 1 / 5; 1 / 5])
                  = Ok [2; 0; 0; 2]).
    { cbn. f_equal. rlist. }
    rewrite Hx1. rewrite (run_bind (lift (Ok _)) _ _ _ _ eq_refl).
    rewrite xp_example. rewrite (run_bind (lift (Ok _)) _ _ _ _ eq_refl).
    rewrite polyfit_xp_example.
    rewrite (run_bind (lift (Ok _)) _ _ _ _ eq_refl).
    cbn [fst].
    assert (Hxp1 : np_subtract [3 / 4; -3 / 4; 6 / 8; -6 / 8]
                    (np_scale 0 [-2 / 5; -2 / 5; 1 / 5; 1 / 5])
                  = Ok [3 / 4; -3 / 4; 6 / 8; -6 / 8]).
    { cbn. f_equal. rlist. }
    rewrite Hxp1. rewrite (run_bind (lift (Ok _)) _ _ _ _ eq_refl).
    assert (Hpx1 : np_multiply [3 / 4; -3 / 4; 6 / 8; -6 / 8] [4; 4; 8; 8]
                   = Ok [3; -3; 6; -6]).
    { cbn. f_equal. rlist. }
    rewrite Hpx1. rewrite (run_bind (lift (Ok _)) _ _ _ _ eq_refl).
    rewrite (run_bind _ _ _ _ _ (run_alloc _ _)). fold l1. fold h1.
    rewrite (run_bind _ _ _ _ _ (run_alloc _ _)). fold l2.
    reflexivity.
  - fold h1.
    destruct (Hne _ _ example_beam_py) as [? ?].
    destruct (Hne _ _ example_beam_pz) as [? ?].
    destruct (Hne _ _ example_beam_w) as [? ?].
    split; [|split; [|split; [|split; [|split]]]].
    + rewrite lookup_insert_ne by congruence. unfold h1. apply lookup_insert_eq.
    + apply lookup_insert_eq.
    + unfold h1. rewrite !lookup_insert_ne by congruence. reflexivity.
    + unfold h1. rewrite !lookup_insert_ne by congruence. reflexivity.
    + unfold h1. rewrite !lookup_insert_ne by congruence. reflexivity.
    + assumption.
Qed.

(** C1: on the example beam, [twiss_parameters_corrected] hands the
    corrected arrays to [twiss_parameters] with w in the place of py and the
    default weight 1.  The call fails (numpy refuses the single value as
    weights), while the trace-space Twiss computation on the same corrected
    arrays with the weights w returns. *)
Theorem twiss_parameters_corrected_drops_weights :
  exists l1 l2 : loc,
    let h2 := <[l2 := [3; -3; 6; -6]]> (<[l1 := [2; 0; 0; 2]]> example_beam) in
    twiss_parameters_corrected 1%positive 2%positive 3%positive 4%positive
      (ARef 5%positive) example_beam
    = twiss_parameters l1 l2 4%positive (Some (ARef 5%positive)) (ANum 1)
        "tr" false h2 /\
    snd (twiss_parameters_corrected 1%positive 2%positive 3%positive
           4%positive (ARef 5%positive) example_beam)
    = Err IndexError /\
    exists abg,
      snd (twiss_parameters l1 l2 4%positive (Some (ARef 3%positive))
             (ARef 5%positive) "tr" false h2)
      = Ok abg.
Proof.
  destruct twiss_parameters_corrected_example
    as (l1 & l2 & Hrun & Hx & Hpx & Hpy & Hpz & Hw & Hwx).
  exists l1, l2. cbv zeta in *. split; [exact Hrun|]. split.
  - rewrite Hrun. unfold twiss_parameters.
    change (String.eqb "tr" "ph") with false.
    change (String.eqb "tr" "tr") with true. cbn iota.
    rewrite (run_bind _ _ _ _ _ (run_load _ _ _ Hx)).
    rewrite (run_bind _ _ _ _ _ (run_load _ _ _ Hpx)).
    assert (Hy : load_opt (Some (ARef 5%positive))
                   (<[l2:=[3; -3; 6; -6]]> (<[l1:=[2; 0; 0; 2]]> example_beam))
                 = (<[l2:=[3; -3; 6; -6]]> (<[l1:=[2; 0; 0; 2]]> example_beam),
                    Ok (Some [1; 1; 2; 2]))).
    { cbn [load_opt]. rewrite (run_bind _ _ _ _ _ (run_load _ _ _ Hw)).
      reflexivity. }
    rewrite (run_bind _ _ _ _ _ Hy).
    rewrite (run_bind _ _ _ _ _ (run_load _ _ _ Hpz)).
    rewrite (run_bind (load_weight (ANum 1)) _ _ _ _ eq_refl).
    assert (Hlen : (1 < length [2; 0; 0; 2])%nat) by (simpl; lia).
    rewrite (trace_emittance_default_weight [2; 0; 0; 2] _ _ _ _ Hlen xp_example).
    reflexivity.
  - assert (Hy : load_opt (Some (ARef 3%positive))
                   (<[l2:=[3; -3; 6; -6]]> (<[l1:=[2; 0; 0; 2]]> example_beam))
                 = (<[l2:=[3; -3; 6; -6]]> (<[l1:=[2; 0; 0; 2]]> example_beam),
                    Ok (Some [0; 0; 0; 0]))).
    { cbn [load_opt]. rewrite (run_bind _ _ _ _ _ (run_load _ _ _ Hpy)).
      reflexivity. }
    destruct (twiss_parameters_example _ l1 l2 4%positive 5%positive
                (Some (ARef 3%positive)) _ Hx Hpx Hpz Hw Hy Hwx) as [abg Habg].
    exists abg. rewrite Habg. reflexivity.
Qed.

(** On every input, [twiss_parameters_corrected] fails. *)
Lemma twiss_parameters_corrected_never_returns (x px py pz : loc) (w : arg)
    (h h' : heap) (abg : R * R * R) :
  twiss_parameters_corrected x px py pz w h <> (h', Ok abg).
Proof.
  unfold twiss_parameters_corrected. intros H. repeat inv_run H.
  apply M_bind_ok in H. destruct H as (l1 & h1 & _ & H).
  apply M_bind_ok in H. destruct H as (l2 & h2 & _ & H).
  exact (twiss_parameters_default_weight _ _ _ _ _ _ _ H).
Qed.

(** ** Twiss parameters: the Courant-Snyder relation *)

(** X1: whenever [twiss_parameters] returns (alpha, beta, gamma), in either
    branch and with or without the dispersion correction, beta is not zero
    and beta * gamma - alpha^2 = 1. *)
Theorem twiss_parameters_courant_snyder
    (x px pz : loc) (py : option arg) (w : arg) (emitt : string)
    (disp_corrected : bool) (h h' : heap) (a_x b_x g_x : R) :
  twiss_parameters x px pz py w emitt disp_corrected h
  = (h', Ok (a_x, b_x, g_x)) ->
  b_x <> 0 /\ b_x * g_x - a_x ^ 2 = 1.
Proof.
  unfold twiss_parameters. intros H.
  destruct (String.eqb emitt "ph").
  - repeat inv_run H.
    apply M_bind_ok in H. destruct H as ([] & h1 & _ & H).
    repeat inv_run H. injection H as _ <- <- <-.
    match goal with
    | E : fdiv (1 + _ ^ 2) _ = Ok _ |- _ =>
        apply fdiv_ok in E; destruct E as [Hb ->]
    end.
    split; [assumption|]. field. assumption.
  - destruct (String.eqb emitt "tr"); [|discriminate].
    repeat inv_run H.
    apply M_bind_ok in H. destruct H as (xp' & h1 & _ & H).
    repeat inv_run H. injection H as _ <- <- <-.
    match goal with
    | E : fdiv (1 + _ ^ 2) _ = Ok _ |- _ =>
        apply fdiv_ok in E; destruct E as [Hb ->]
    end.
    split; [assumption|]. field. assumption.
Qed.

Lemma twiss_parameters_courant_snyder_witness :
  exists a_x b_x g_x,
    twiss_parameters 1%positive 2%positive 4%positive (Some (ARef 3%positive))
      (ARef 5%positive) "tr" false example_beam
    = (<[1%positive := [1; -1; -1; 1]]> example_beam, Ok (a_x, b_x, g_x)) /\
    b_x <> 0 /\ b_x * g_x - a_x ^ 2 = 1.
Proof.
  destruct example_beam_run as [[[a_x b_x] g_x] Hrun].
  exists a_x, b_x, g_x. split; [exact Hrun|].
  exact (twiss_parameters_courant_snyder _ _ _ _ _ _ _ _ _ _ _ _ Hrun).
Defined.

(** ** Twiss parameters: runs that fail *)

(** a computation that reads the heap only *)
Lemma read_only_bind {A B : Type} (m : M A) (f : A -> M B) (h : heap)
    (P : heap * res B -> Prop) :
  fst (m h) = h ->
  (forall e, snd (m h) = Err e -> P (h, Err e)) ->
  (forall a, snd (m h) = Ok a -> P (f a h)) ->
  P ((m ≫= f) h).
Proof.
  intros Hh He Hok. unfold mbind, M_bind.
  destruct (m h) as [h1 [a|e]]; cbn [fst snd] in *; subst h1.
  - apply Hok. reflexivity.
  - apply He. reflexivity.
Qed.

Lemma load_read_only (l : loc) (h : heap) : fst (load l h) = h.
Proof. reflexivity. Qed.

Lemma lift_read_only {A : Type} (r : res A) (h : heap) : fst (lift r h) = h.
Proof. reflexivity. Qed.

Lemma load_weight_read_only (w : arg) (h : heap) : fst (load_weight w h) = h.
Proof.
  destruct (load_weight w h) as [h1 r] eqn:E.
  apply load_weight_heap in E. exact E.
Qed.

Lemma load_opt_read_only (py : option arg) (h : heap) : fst (load_opt py h) = h.
Proof.
  destruct (load_opt py h) as [h1 r] eqn:E.
  apply load_opt_heap in E. exact E.
Qed.

Ltac read_only :=
  first [ apply load_read_only | apply lift_read_only
        | apply load_weight_read_only | apply load_opt_read_only ].

Ltac read_step :=
  apply read_only_bind;
  [ read_only
  | intros ? _; split; [reflexivity | intros ?; discriminate]
  | intros ? ? ].

Ltac single_value_fails :=
  match goal with
  | Hw : snd (load_weight (ANum _) _) = Ok _ |- _ =>
      cbn in Hw; injection Hw as <-
  end;
  match goal with
  | Ha : snd (lift (np_average _ (WNum _)) _) = Ok _ |- _ =>
      cbn in Ha; discriminate
  end.

(** X2: with a single value as the weight (the default [w=1] included),
    [twiss_parameters] never returns, whatever the branch and the
    dispersion flag, and the arrays of the caller are as before the call:
    the failure comes before the first in-place update. *)
Theorem twiss_parameters_single_value_weight
    (x px pz : loc) (py : option arg) (r : R) (emitt : string)
    (disp_corrected : bool) (h : heap) :
  fst (twiss_parameters x px pz py (ANum r) emitt disp_corrected h) = h /\
  forall abg,
    snd (twiss_parameters x px pz py (ANum r) emitt disp_corrected h) <> Ok abg.
Proof.
  unfold twiss_parameters.
  destruct (String.eqb emitt "ph").
  - do 8 read_step. single_value_fails.
  - destruct (String.eqb emitt "tr").
    + do 8 read_step. single_value_fails.
    + split; [reflexivity | intros ?; discriminate].
Qed.

Lemma allocated_keeps (h : heap) (a : array) (l : loc) (v : array) :
  h !! l = Some v -> <[fresh (dom h) := a]> h !! l = Some v.
Proof.
  intros Hl. rewrite lookup_insert_ne; [exact Hl|].
  intros E. pose proof (fresh_lookup h) as F. rewrite E in F. congruence.
Qed.

(** X4: [twiss_parameters_corrected] never returns, and every array of the
    caller is after the call as it was before: the corrected x and px are
    new arrays, and the in-place centring of [twiss_parameters] would act on
    those. *)
Theorem twiss_parameters_corrected_fails
    (x px py pz : loc) (w : arg) (h : heap) :
  (forall abg, snd (twiss_parameters_corrected x px py pz w h) <> Ok abg) /\
  (forall l a, h !! l = Some a ->
     fst (twiss_parameters_corrected x px py pz w h) !! l = Some a).
Proof.
  split.
  - intros abg H.
    destruct (twiss_parameters_corrected x px py pz w h) as [h' r] eqn:E.
    cbn [snd] in H. subst r.
    exact (twiss_parameters_corrected_never_returns _ _ _ _ _ _ _ _ E).
  - unfold twiss_parameters_corrected.
    repeat (apply read_only_bind;
      [ read_only | intros ? _ ? ? Hl; exact Hl | intros ? ? ]).
    cbv zeta.
    rewrite (run_bind _ _ _ _ _ (run_alloc _ _)).
    rewrite (run_bind _ _ _ _ _ (run_alloc _ _)).
    intros l arr Hl.
    match goal with
    | |- fst (twiss_parameters ?x' ?px' pz (Some w) (ANum 1) "tr" false ?h2)
           !! l = _ =>
        pose proof (twiss_parameters_frame x' px' pz (Some w) (ANum 1) "tr"
                      false h2 l) as Hfr
    end.
    change (String.eqb "tr" "ph") with false in Hfr. cbv iota in Hfr.
    rewrite Hfr.
    + apply allocated_keeps, allocated_keeps, Hl.
    + rewrite not_elem_of_cons. split; [|apply not_elem_of_nil].
      intros ->. pose proof (fresh_lookup h). congruence.
Qed.

(** ** Energies *)

Lemma mean_energy_ge_one (px py pz : array) (w : weight) (e : R) :
  mean_energy px py pz w = Ok e -> 1 <= e.
Proof.
  unfold mean_energy. intros H. inv_bind H. injection H as <-.
  pose proof (sqrt_pos (Rsqr v)). lra.
Qed.

(** X5: whatever the signs of the weights, a mean kinetic energy that is
    returned is not negative and a mean energy that is returned is at least
    the rest energy 1. *)
Theorem mean_energy_at_least_rest_energy (px py pz : array) (w : weight)
    (k e : R) :
  mean_kinetic_energy px py pz w = Ok k ->
  mean_energy px py pz w = Ok e ->
  0 <= k /\ 1 <= e.
Proof.
  intros Hk He. split.
  - eapply mean_kinetic_energy_nonneg, Hk.
  - eapply mean_energy_ge_one, He.
Qed.

Lemma mean_energy_at_least_rest_energy_witness : 0 <= 5 /\ 1 <= 6.
Proof.
  apply (mean_energy_at_least_rest_energy [3; 0] [0; 0] [4; 5] (WArr [1; -3])).
  - exact (proj1 mean_energy_example).
  - exact (proj2 mean_energy_example).
Defined.

(** X6: when the RMS energy spread is s and the mean energy is e, the
    relative spread is returned and is s / e (the division cannot fail,
    since e is at least 1), and its magnitude is at most that of s. *)
Theorem relative_energy_spread_bounds (px py pz : array) (w : weight) (s e : R) :
  rms_energy_spread px py pz w = Ok s ->
  mean_energy px py pz w = Ok e ->
  relative_rms_energy_spread px py pz w = Ok (s / e) /\
  Rabs (s / e) <= Rabs s.
Proof.
  intros Hs He. unfold relative_rms_energy_spread. rewrite Hs, He. simpl_bind.
  pose proof (mean_energy_ge_one px py pz w e He) as H1.
  rewrite fdiv_nonzero by lra. split; [reflexivity|].
  assert (Hinv : 0 < / e <= 1).
  { split; [apply Rinv_0_lt_compat; lra|].
    rewrite <- Rinv_1. apply Rinv_le_contravar; lra. }
  unfold Rdiv. rewrite Rabs_mult, (Rabs_right (/ e)) by lra.
  pose proof (Rabs_pos s). nra.
Qed.

Lemma energies_at_rest :
  rms_energy_spread [0] [0] [0] (WArr [2]) = Ok 0 /\
  mean_energy [0] [0] [0] (WArr [2]) = Ok 1.
Proof.
  split.
  - unfold rms_energy_spread, particle_energy, np_sqrt_arr. reval.
    rsqrt (1 + 0² + 0² + 0²) 1.
    unfold weighted_std, weighted_mean, np_sqrt. reval.
    match goal with |- context [sqrt ?a] => replace a with 0 by (field; lra) end.
    rewrite sqrt_0. reflexivity.
  - unfold mean_energy, mean_kinetic_energy, momentum_norm, np_sqrt_arr. reval.
    rsqrt (0² + 0² + 0²) 0. reval.
    match goal with |- context [Rsqr ?a] => replace a with 0 by (field; lra) end.
    rewrite Rsqr_0, sqrt_0. f_equal. lra.
Qed.

Lemma relative_energy_spread_bounds_witness :
  relative_rms_energy_spread [0] [0] [0] (WArr [2]) = Ok (0 / 1) /\
  Rabs (0 / 1) <= Rabs 0.
Proof.
  apply relative_energy_spread_bounds.
  - exact (proj1 energies_at_rest).
  - exact (proj2 energies_at_rest).
Defined.

(** ** Emittances: shifts of the coordinates *)

Lemma np_sum_shifted (z wgt : array) (c : R) :
  length z = length wgt ->
  np_sum (zip_with Rmult (map (fun v => v + c) z) wgt)
  = np_sum (zip_with Rmult z wgt) + c * np_sum wgt.
Proof.
  revert wgt. induction z as [|v z IH]; intros [|u wgt] Hl; simpl in *;
    try discriminate; [lra|].
  rewrite IH by lia. lra.
Qed.

(** The covariance matrix does not change when a constant is added to
    either coordinate. *)
Lemma np_cov_shift (x y : array) (a : weight) (c d : R) :
  np_cov (map (fun v => v + c) x) (map (fun v => v + d) y) a = np_cov x y a.
Proof.
  destruct a as [r|a]; [reflexivity|]. unfold np_cov.
  rewrite !length_map.
  destruct (Nat.eqb_spec (length x) (length y)) as [Hxy|]; [|reflexivity].
  destruct (Nat.eqb_spec (length a) (length x)) as [Hax|]; [|reflexivity].
  cbn [negb].
  destruct (existsb _ a); [reflexivity|].
  destruct (Reqb_spec (np_sum a) 0) as [|Hw]; [reflexivity|].
  cbv zeta. destruct (Rleb _ 0); [reflexivity|].
  rewrite !np_sum_shifted by congruence.
  rewrite !map_map.
  set (sx := np_sum (zip_with Rmult x a)).
  set (sy := np_sum (zip_with Rmult y a)).
  set (s := np_sum a) in *.
  assert (Hx : map (fun v => v + c - (sx + c * s) / s) x
               = map (fun v => v - sx / s) x).
  { apply map_ext. intros v. field. assumption. }
  assert (Hy : map (fun v => v + d - (sy + d * s) / s) y
               = map (fun v => v - sy / s) y).
  { apply map_ext. intros v. field. assumption. }
  rewrite Hx, Hy. reflexivity.
Qed.

Lemma shift_as_map (x : array) (c : R) :
  np_subtract_scalar x c = map (fun v => v + - c) x.
Proof. apply map_ext. intros v. lra. Qed.

Lemma map_plus_zero (x : array) : map (fun v => v + 0) x = x.
Proof. rewrite <- (map_id x) at 2. apply map_ext. intros v. lra. Qed.

Lemma trace_emittance_shift (x px : array) (py pz : option array) (w : weight)
    (c : R) :
  transverse_trace_space_rms_emittance (map (fun v => v + c) x) px py pz w false
  = transverse_trace_space_rms_emittance x px py pz w false.
Proof.
  unfold transverse_trace_space_rms_emittance. rewrite length_map.
  destruct (Nat.ltb 1 (length x)); [|reflexivity].
  destruct pz as [pz|]; [|reflexivity]. simpl_bind.
  destruct (np_divide px pz) as [xp|e]; [|reflexivity]. simpl_bind.
  cbn [fst snd].
  rewrite <- (map_plus_zero xp) at 1. rewrite np_cov_shift. reflexivity.
Qed.

(** X7: without the dispersion correction the emittances do not depend on
    where the beam is: the phase-space emittance is unchanged when a
    constant is subtracted from x and another from px, the trace-space
    emittance when a constant is subtracted from x, the longitudinal
    emittance when a constant is subtracted from z; errors included. *)
Theorem emittance_translation_invariant
    (x px : array) (py pz : option array) (z g_px g_py g_pz : array)
    (w : weight) (c d : R) :
  normalized_transverse_rms_emittance (np_subtract_scalar x c)
    (np_subtract_scalar px d) py pz w false
  = normalized_transverse_rms_emittance x px py pz w false /\
  transverse_trace_space_rms_emittance (np_subtract_scalar x c) px py pz w false
  = transverse_trace_space_rms_emittance x px py pz w false /\
  longitudinal_rms_emittance (np_subtract_scalar z c) g_px g_py g_pz w
  = longitudinal_rms_emittance z g_px g_py g_pz w.
Proof.
  rewrite !shift_as_map. split; [|split].
  - unfold normalized_transverse_rms_emittance. rewrite length_map.
    simpl_bind. rewrite np_cov_shift. reflexivity.
  - apply trace_emittance_shift.
  - unfold longitudinal_rms_emittance.
    destruct (particle_energy g_px g_py g_pz) as [g|e]; [|reflexivity].
    simpl_bind. rewrite <- (map_plus_zero g) at 1. rewrite np_cov_shift.
    reflexivity.
Qed.

(** ** The determinant of a covariance matrix *)










(** ** Trace-space emittance and the longitudinal momentum *)








Lemma np_divide_by_zero (px pz : array) :
  length pz = length px -> In 0 pz -> np_divide px pz = Err NotFinite.
Proof.
  intros Hl H0. unfold np_divide.
  rewrite broadcast2_same_length by congruence. simpl_bind.
  replace (forallb _ (zip_with pair px pz)) with false; [reflexivity|].
  symmetry. apply not_true_is_false. intros Hall.
  rewrite forallb_forall in Hall.
  revert pz Hl H0 Hall. induction px as [|v px IH]; intros [|t pz] Hl H0 Hall;
    simpl in Hl; try discriminate; [destruct H0|].
  destruct H0 as [->|H0].
  - specialize (Hall (v, 0) (or_introl eq_refl)). cbn [snd] in Hall.
    rewrite Reqb_true in Hall by reflexivity. discriminate.
  - apply (IH pz); [lia | assumption|].
    intros p Hp. apply Hall. right. exact Hp.
Qed.

(** X10: for at least two particles, one particle with longitudinal
    momentum 0 is enough for the trace-space emittance not to be a finite
    number (px/pz divides by zero), whatever the weights are. *)
Theorem trace_space_emittance_zero_pz
    (x px : array) (py : option array) (pz : array) (w : weight)
    (disp_corrected : bool) :
  (2 <= length x)%nat -> length pz = length px -> In 0 pz ->
  transverse_trace_space_rms_emittance x px py (Some pz) w disp_corrected
  = Err NotFinite.
Proof.
  intros Hn Hl H0. unfold transverse_trace_space_rms_emittance.
  replace (Nat.ltb 1 (length x)) with true by (symmetry; apply Nat.ltb_lt; lia).
  simpl_bind. rewrite np_divide_by_zero by assumption. reflexivity.
Qed.

Lemma trace_space_emittance_zero_pz_witness :
  transverse_trace_space_rms_emittance [0; 1] [1; 2] None (Some [3; 0])
    (WArr [1; 1]) false
  = Err NotFinite.
Proof.
  apply trace_space_emittance_zero_pz.
  - simpl. lia.
  - reflexivity.
  - right. left. reflexivity.
Defined.

(** ** Emittances scaled by the mean momentum *)

(** X11: with fewer than two particles and a mean momentum gamma_avg that
    is defined, the normalized trace-space emittance is 0, and the geometric
    emittance is 0 unless gamma_avg is 0, when 0/0 is not a number. *)
Theorem scaled_emittances_of_fewer_than_two_particles
    (x px py pz : array) (w : weight) (disp_corrected : bool)
    (gamma : array) (gamma_avg : R) :
  (length x < 2)%nat ->
  momentum_norm px (Some py) (Some pz) = Ok gamma ->
  np_average gamma w = Ok gamma_avg ->
  normalized_transverse_trace_space_rms_emittance x px py pz w disp_corrected
  = Ok 0 /\
  geometric_transverse_rms_emittance x px py pz w disp_corrected
  = (if Reqb gamma_avg 0 then Err NotFinite else Ok 0).
Proof.
  intros Hl Hg Ha.
  assert (Hlt : Nat.ltb 1 (length x) = false) by (apply Nat.ltb_ge; lia).
  unfold normalized_transverse_trace_space_rms_emittance,
    geometric_transverse_rms_emittance,
    transverse_trace_space_rms_emittance, normalized_transverse_rms_emittance.
  rewrite Hg, Hlt. simpl_bind. rewrite Ha. simpl_bind. split.
  - f_equal. lra.
  - unfold fdiv. destruct (Reqb gamma_avg 0); [reflexivity|].
    f_equal. unfold Rdiv. lra.
Qed.

Lemma momentum_of_one_particle :
  momentum_norm [3] (Some [0]) (Some [4]) = Ok [5].
Proof.
  unfold momentum_norm, np_sqrt_arr. reval.
  rsqrt (3² + 0² + 4²) 5. reflexivity.
Qed.

Lemma scaled_emittances_of_fewer_than_two_particles_witness :
  normalized_transverse_trace_space_rms_emittance [7] [3] [0] [4] (WArr [1])
    true = Ok 0 /\
  geometric_transverse_rms_emittance [7] [3] [0] [4] (WArr [1]) true
  = (if Reqb (5 * 1 / 1) 0 then Err NotFinite else Ok 0).
Proof.
  apply (scaled_emittances_of_fewer_than_two_particles [7] [3] [0] [4]
           (WArr [1]) true [5]).
  - simpl. lia.
  - exact momentum_of_one_particle.
  - cbn. rtest. f_equal. lra.
Defined.

(** ** A single value as the weight *)

(** X12: with a single value as the weight (the default [w=1] included)
    the functions that hand the weight to numpy for an array return no
    value, whatever the arrays are: mean kinetic energy, mean energy,
    longitudinal energy chirp and longitudinal emittance. *)
Theorem single_value_weight_is_refused (z px py pz : array) (r : R) :
  (forall v, mean_kinetic_energy px py pz (WNum r) <> Ok v) /\
  (forall v, mean_energy px py pz (WNum r) <> Ok v) /\
  (forall v, longitudinal_energy_chirp z px py pz (WNum r) <> Ok v) /\
  (forall v, longitudinal_rms_emittance z px py pz (WNum r) <> Ok v).
Proof.
  assert (Hk : forall u, mean_kinetic_energy px py pz (WNum r) <> Ok u).
  { intros u H. unfold mean_kinetic_energy in H. inv_bind H. discriminate. }
  split; [exact Hk|]. split; [|split]; intros v H.
  - unfold mean_energy in H. inv_bind H. exact (Hk _ E).
  - unfold longitudinal_energy_chirp in H.
    inv_bind H. inv_bind H. discriminate.
  - unfold longitudinal_rms_emittance in H.
    inv_bind H. inv_bind H. discriminate.
Qed.

(** X13: with a single value as the weight (the default [w=1] included)
    the geometric and the normalized trace-space emittance return no value,
    whatever the arrays are, and for at least two particles neither do the
    phase-space and the trace-space emittance; with or without the
    dispersion correction. *)
Theorem single_value_weight_emittance (x px py pz : array)
    (opy opz : option array) (r : R) (disp_corrected : bool) :
  (forall v, geometric_transverse_rms_emittance x px py pz (WNum r)
               disp_corrected <> Ok v) /\
  (forall v, normalized_transverse_trace_space_rms_emittance x px py pz
               (WNum r) disp_corrected <> Ok v) /\
  ((2 <= length x)%nat ->
   (forall v, normalized_transverse_rms_emittance x px opy opz (WNum r)
                disp_corrected <> Ok v) /\
   (forall v, transverse_trace_space_rms_emittance x px opy opz (WNum r)
                disp_corrected <> Ok v)).
Proof.
  split; [|split].
  - intros v H. unfold geometric_transverse_rms_emittance in H.
    inv_bind H. inv_bind H. discriminate.
  - intros v H. unfold normalized_transverse_trace_space_rms_emittance in H.
    inv_bind H. inv_bind H. discriminate.
  - intros Hn.
    assert (Hlt : Nat.ltb 1 (length x) = true) by (apply Nat.ltb_lt; lia).
    split; intros v H.
    + unfold normalized_transverse_rms_emittance in H.
      rewrite Hlt in H. inv_bind H. inv_bind H. discriminate.
    + unfold transverse_trace_space_rms_emittance in H.
      rewrite Hlt in H. inv_bind H. inv_bind H. inv_bind H. inv_bind H.
      discriminate.
Qed.

Lemma single_value_weight_emittance_witness :
  (forall v, normalized_transverse_rms_emittance [0; 1] [1; 2] None
               (Some [3; 4]) (WNum 1) false <> Ok v) /\
  (forall v, transverse_trace_space_rms_emittance [0; 1] [1; 2] None
               (Some [3; 4]) (WNum 1) false <> Ok v).
Proof.
  apply (single_value_weight_emittance [0; 1] [1; 2] [0; 0] [3; 4] None
           (Some [3; 4]) 1 false).
  simpl. lia.
Defined.

(** ** The signs of the weights *)

(** X14: the mean kinetic energy and, without dispersion correction, the
    phase-space, trace-space and longitudinal emittances see the
    per-particle weights through their absolute values only: two weight
    arrays with the same absolute values give the same outcome. *)
Theorem weights_enter_by_absolute_value
    (x px : array) (py pz : option array) (z g_px g_py g_pz wa wb : array) :
  map Rabs wa = map Rabs wb ->
  mean_kinetic_energy g_px g_py g_pz (WArr wa)
  = mean_kinetic_energy g_px g_py g_pz (WArr wb) /\
  normalized_transverse_rms_emittance x px py pz (WArr wa) false
  = normalized_transverse_rms_emittance x px py pz (WArr wb) false /\
  transverse_trace_space_rms_emittance x px py pz (WArr wa) false
  = transverse_trace_space_rms_emittance x px py pz (WArr wb) false /\
  longitudinal_rms_emittance z g_px g_py g_pz (WArr wa)
  = longitudinal_rms_emittance z g_px g_py g_pz (WArr wb).
Proof.
  intros Habs.
  assert (Hw : np_abs (WArr wa) = np_abs (WArr wb)).
  { cbn [np_abs]. rewrite Habs. reflexivity. }
  unfold mean_kinetic_energy, normalized_transverse_rms_emittance,
    transverse_trace_space_rms_emittance, longitudinal_rms_emittance.
  rewrite Hw. repeat split; reflexivity.
Qed.

Lemma weights_enter_by_absolute_value_witness :
  mean_kinetic_energy [3; 0] [0; 0] [4; 5] (WArr [1; -3])
  = mean_kinetic_energy [3; 0] [0; 0] [4; 5] (WArr [-1; 3]) /\
  normalized_transverse_rms_emittance [0; 1] [1; 2] None None (WArr [1; -3])
    false
  = normalized_transverse_rms_emittance [0; 1] [1; 2] None None (WArr [-1; 3])
      false /\
  transverse_trace_space_rms_emittance [0; 1] [1; 2] None None (WArr [1; -3])
    false
  = transverse_trace_space_rms_emittance [0; 1] [1; 2] None None
      (WArr [-1; 3]) false /\
  longitudinal_rms_emittance [0; 1] [3; 0] [0; 0] [4; 5] (WArr [1; -3])
  = longitudinal_rms_emittance [0; 1] [3; 0] [0; 0] [4; 5] (WArr [-1; 3]).
Proof.
  apply weights_enter_by_absolute_value.
  cbn [map]. rabs. rlist.
Defined.

(** ** Chirp: shifts of z *)

Lemma np_average_shift (z : array) (w : weight) (c : R) :
  np_average (map (fun v => v + c) z) w
  = (fun m => m + c) <$> np_average z w.
Proof.
  destruct w as [r|wgt]; [reflexivity|]. unfold np_average.
  rewrite length_map.
  destruct (Nat.eqb_spec (length z) (length wgt)) as [Hl|]; [|reflexivity].
  destruct (Reqb_spec (np_sum wgt) 0) as [|Hw]; [reflexivity|].
  cbn. f_equal. rewrite np_sum_shifted by assumption. field. assumption.
Qed.

Lemma recentred (z : array) (m c : R) :
  np_subtract_scalar (map (fun v => v + c) z) (m + c) = np_subtract_scalar z m.
Proof.
  unfold np_subtract_scalar. rewrite map_map. apply map_ext. intros v. lra.
Qed.

(** X15: the longitudinal energy chirp and the RMS correlated energy spread
    do not depend on the origin of z: adding a constant to every z gives
    the same outcome, errors included. *)
Theorem chirp_translation_invariant (z px py pz : array) (w : weight) (c : R) :
  longitudinal_energy_chirp (map (fun v => v + c) z) px py pz w
  = longitudinal_energy_chirp z px py pz w /\
  rms_correlated_energy_spread (map (fun v => v + c) z) px py pz w
  = rms_correlated_energy_spread z px py pz w.
Proof.
  assert (HK : longitudinal_energy_chirp (map (fun v => v + c) z) px py pz w
               = longitudinal_energy_chirp z px py pz w).
  { unfold longitudinal_energy_chirp.
    destruct (particle_energy px py pz) as [ene|e]; [|reflexivity]. simpl_bind.
    destruct (np_average ene w) as [mean_ene|e]; [|reflexivity]. simpl_bind.
    rewrite np_average_shift.
    destruct (np_average z w) as [mean_z|e]; [|reflexivity].
    cbn [fmap res_fmap]. simpl_bind. rewrite recentred. reflexivity. }
  split; [exact HK|].
  unfold rms_correlated_energy_spread. rewrite HK.
  destruct (longitudinal_energy_chirp z px py pz w) as [K|e]; [|reflexivity].
  simpl_bind. rewrite np_average_shift.
  destruct (np_average z w) as [mean_z|e]; [|reflexivity].
  cbn [fmap res_fmap]. simpl_bind. rewrite recentred. reflexivity.
Qed.

(** ** Slices: the arrays that are returned *)

Lemma energy_spread_of_slice_pass (z px py pz : array) (w : weight)
    (slice_lims : array) (i : nat) (st st' : array * array) :
  energy_spread_of_slice z px py pz w slice_lims i st = Ok st' ->
  slice_pass z slice_lims i st st'.
Proof.
  unfold energy_spread_of_slice. intros H. inv_bind H. inv_bind H.
  apply index_ok in E, E0. cbv zeta in H.
  unfold slice_pass.
  destruct (any (slice_particle_filter z v v0)) eqn:Hany.
  - repeat inv_bind H. injection H as <-. cbn [fst snd].
    rewrite !length_insert.
    split; [reflexivity|]. split; [reflexivity|]. split.
    + intros j Hj. split; apply list_lookup_insert_ne; congruence.
    + exists v, v0. split; [assumption|]. split; [assumption|]. congruence.
  - injection H as <-.
    split; [reflexivity|]. split; [reflexivity|]. split.
    + intros j Hj. split; reflexivity.
    + exists v, v0. auto.
Qed.

Lemma emittance_of_slice_pass (z x px : array) (py pz : option array)
    (w : weight) (disp_corrected : bool) (slice_lims : array)
    (i : nat) (st st' : array * array) :
  emittance_of_slice z x px py pz w disp_corrected slice_lims i st = Ok st' ->
  slice_pass z slice_lims i st st'.
Proof.
  unfold emittance_of_slice. intros H. inv_bind H. inv_bind H.
  apply index_ok in E, E0. cbv zeta in H.
  unfold slice_pass.
  destruct (any (slice_particle_filter z v v0)) eqn:Hany.
  - repeat inv_bind H. injection H as <-. cbn [fst snd].
    rewrite !length_insert.
    split; [reflexivity|]. split; [reflexivity|]. split.
    + intros j Hj. split; apply list_lookup_insert_ne; congruence.
    + exists v, v0. split; [assumption|]. split; [assumption|]. congruence.
  - injection H as <-.
    split; [reflexivity|]. split; [reflexivity|]. split.
    + intros j Hj. split; reflexivity.
    + exists v, v0. auto.
Qed.

Lemma for_each_passes (z slice_lims : array)
    (body : nat -> array * array -> res (array * array))
    (idx : list nat) (st st' : array * array) :
  (forall i s s', body i s = Ok s' -> slice_pass z slice_lims i s s') ->
  for_each idx body st = Ok st' ->
  length (fst st') = length (fst st) /\
  length (snd st') = length (snd st) /\
  forall i,
    (~ In i idx -> fst st' !! i = fst st !! i /\ snd st' !! i = snd st !! i) /\
    (In i idx ->
     exists a b,
       slice_lims !! i = Some a /\ slice_lims !! (i + 1)%nat = Some b /\
       (any (slice_particle_filter z a b) = false ->
        fst st' !! i = fst st !! i /\ snd st' !! i = snd st !! i)).
Proof.
  intros Hbody. revert st. induction idx as [|k idx IH]; intros st H.
  - injection H as <-. split; [reflexivity|]. split; [reflexivity|].
    intros i. split; [intros _; split; reflexivity | intros []].
  - cbn [for_each] in H. inv_bind H.
    destruct (Hbody _ _ _ E) as (L1 & L2 & Hother & a & b & Ha & Hb & Hempty).
    destruct (IH _ H) as (M1 & M2 & Hrest).
    split; [congruence|]. split; [congruence|].
    intros i. destruct (Hrest i) as [Hout Hin]. split.
    + intros Hni. destruct (Hout ltac:(intros Hi; apply Hni; right; exact Hi))
        as [-> ->].
      apply Hother. intros ->. apply Hni. left. reflexivity.
    + intros Hi.
      destruct (in_dec Nat.eq_dec i idx) as [Hidx|Hidx].
      * destruct (Hin Hidx) as (a' & b' & Ha' & Hb' & Hkeep).
        exists a', b'. split; [assumption|]. split; [assumption|].
        intros Hf. destruct (Hkeep Hf) as [-> ->].
        destruct (Nat.eq_dec i k) as [->|Hne].
        -- rewrite Ha in Ha'. rewrite Hb in Hb'.
           injection Ha' as <-. injection Hb' as <-.
           rewrite (Hempty Hf). split; reflexivity.
        -- apply Hother, Hne.
      * destruct Hi as [<-|Hi]; [|contradiction].
        exists a, b. split; [assumption|]. split; [assumption|].
        intros Hf. destruct (Hout Hidx) as [-> ->].
        rewrite (Hempty Hf). split; reflexivity.
Qed.

Lemma zeros_lookup (n i : nat) : (i < n)%nat -> np_zeros n !! i = Some 0.
Proof.
  unfold np_zeros. revert i. induction n as [|n IH]; intros [|i] Hi;
    try lia; [reflexivity|].
  cbn. apply IH. lia.
Qed.

Lemma sliced_outputs (z slice_lims : array) (n : nat)
    (body : nat -> array * array -> res (array * array))
    (st : array * array) :
  (forall i s s', body i s = Ok s' -> slice_pass z slice_lims i s s') ->
  for_each (seq 0 n) body (np_zeros n, np_zeros n) = Ok st ->
  length (fst st) = n /\ length (snd st) = n /\
  forall i, (i < n)%nat ->
    exists a b,
      slice_lims !! i = Some a /\ slice_lims !! S i = Some b /\
      (any (slice_particle_filter z a b) = false ->
       fst st !! i = Some 0 /\ snd st !! i = Some 0).
Proof.
  intros Hbody Hloop.
  destruct (for_each_passes z _ body _ _ _ Hbody Hloop) as (L1 & L2 & Hall).
  cbn [fst snd] in *. unfold np_zeros in L1, L2. rewrite repeat_length in L1, L2.
  split; [assumption|]. split; [assumption|].
  intros i Hi. destruct (Hall i) as [_ Hin].
  destruct (Hin ltac:(apply in_seq; lia)) as (a & b & Ha & Hb & Hkeep).
  rewrite Nat.add_1_r in Hb.
  exists a, b. split; [assumption|]. split; [assumption|].
  intros Hf. destruct (Hkeep Hf) as [-> ->].
  split; apply zeros_lookup, Hi.
Qed.

(** X16: what the two per-slice functions return, for any weight: as many
    slice values as slice weights; every slice has its two edges in the
    array of edges; a slice (a, b] that holds no particle has the value 0
    and the weight 0. *)
Theorem slice_outputs_and_empty_slices
    (z x px py pz : array) (opy opz : option array) (w : weight)
    (disp_corrected : bool) (n_slices : Z) (len_slice : option R)
    (r : res (array * array * array)) (vals wts edges : array) :
  r = relative_rms_slice_energy_spread z px py pz w n_slices len_slice
  \/ r = normalized_transverse_rms_slice_emittance z x px opy opz w
           disp_corrected n_slices len_slice ->
  r = Ok (vals, wts, edges) ->
  length vals = length wts /\
  forall i, (i < length vals)%nat ->
    exists a b,
      edges !! i = Some a /\ edges !! S i = Some b /\
      (any (slice_particle_filter z a b) = false ->
       vals !! i = Some 0 /\ wts !! i = Some 0).
Proof.
  intros Hr Hok. subst r. destruct Hr as [Hr | Hr]; symmetry in Hr.
  - unfold relative_rms_slice_energy_spread in Hr. inv_bind Hr.
    destruct v as [slice_lims n]. cbn [fst snd] in Hr.
    destruct (Z.ltb_spec n 0); [discriminate|].
    inv_bind Hr. injection Hr as <- <- <-.
    apply (sliced_outputs z slice_lims) in E0;
      [| intros i s s'; apply energy_spread_of_slice_pass].
    destruct E0 as (L1 & L2 & Hall). split; [congruence|].
    intros i Hi. apply Hall. lia.
  - unfold normalized_transverse_rms_slice_emittance in Hr. inv_bind Hr.
    destruct v as [slice_lims n]. cbn [fst snd] in Hr.
    destruct (Z.ltb_spec n 0); [discriminate|].
    inv_bind Hr. injection Hr as <- <- <-.
    apply (sliced_outputs z slice_lims) in E0;
      [| intros i s s'; apply emittance_of_slice_pass].
    destruct E0 as (L1 & L2 & Hall). split; [congruence|].
    intros i Hi. apply Hall. lia.
Qed.

Lemma slice_outputs_and_empty_slices_witness :
  length [0; 0] = length [2 + 0; 3 + 0] /\
  forall i, (i < length [0; 0])%nat ->
    exists a b,
      [0; 1; 2] !! i = Some a /\ [0; 1; 2] !! S i = Some b /\
      (any (slice_particle_filter [0; 1; 2] a b) = false ->
       [0; 0] !! i = Some 0 /\ [2 + 0; 3 + 0] !! i = Some 0).
Proof.
  apply (slice_outputs_and_empty_slices [0; 1; 2] [] [0; 0; 0] [0; 0; 0]
           [0; 0; 0] None None (WArr [1; 2; 3]) false 2 None
           (relative_rms_slice_energy_spread [0; 1; 2] [0; 0; 0] [0; 0; 0]
              [0; 0; 0] (WArr [1; 2; 3]) 2 None)).
  - left. reflexivity.
  - exact slices_example.
Defined.

Lemma slice_weights_after_loop (z wa slice_lims : array) (n : nat)
    (wts : array) :
  (forall i, (i < n)%nat ->
     exists a b, slice_lims !! i = Some a /\ slice_lims !! S i = Some b) ->
  wts = fold_left (fun wts i => slice_weight_update z wa slice_lims i wts)
          (seq 0 n) (np_zeros n) ->
  forall i a b, (i < n)%nat ->
    slice_lims !! i = Some a -> slice_lims !! S i = Some b ->
    wts !! i = Some (np_sum (compress (slice_particle_filter z a b) wa)).
Proof.
  intros Hlims Hwts i a b Hi Ha Hb.
  set (e := fun j => default 0 (slice_lims !! j)).
  assert (He : forall j, (j <= n)%nat -> slice_lims !! j = Some (e j)).
  { intros j Hj. unfold e. destruct (Nat.eq_dec j n) as [->|Hne].
    - destruct n as [|m]; [lia|].
      destruct (Hlims m ltac:(lia)) as (a' & b' & _ & ->). reflexivity.
    - destruct (Hlims j ltac:(lia)) as (a' & b' & -> & _). reflexivity. }
  rewrite (slice_weights_filled z wa _ e n n He) in Hwts by lia.
  rewrite Nat.sub_diag in Hwts. unfold np_zeros in Hwts. cbn [repeat] in Hwts.
  rewrite app_nil_r in Hwts.
  rewrite Hwts, lookup_map, lookup_seq_lt by lia. cbn.
  rewrite He in Ha, Hb by lia. injection Ha as <-. injection Hb as <-.
  reflexivity.
Qed.

(** X17: with per-particle weights, the weight that the two per-slice
    functions return for slice i is the sum of the weights of the
    particles with a < z <= b, where a and b are the edges i and i + 1 (0
    for a slice that holds no particle). *)
Theorem slice_weight_is_weight_in_slice
    (z x px py pz : array) (opy opz : option array) (wa : array)
    (disp_corrected : bool) (n_slices : Z) (len_slice : option R)
    (r : res (array * array * array)) (vals wts edges : array) :
  r = relative_rms_slice_energy_spread z px py pz (WArr wa) n_slices len_slice
  \/ r = normalized_transverse_rms_slice_emittance z x px opy opz (WArr wa)
           disp_corrected n_slices len_slice ->
  r = Ok (vals, wts, edges) ->
  forall i a b, (i < length wts)%nat ->
    edges !! i = Some a -> edges !! S i = Some b ->
    wts !! i = Some (np_sum (compress (slice_particle_filter z a b) wa)).
Proof.
  intros Hr Hok. subst r. destruct Hr as [Hr | Hr]; symmetry in Hr.
  - unfold relative_rms_slice_energy_spread in Hr. inv_bind Hr.
    destruct v as [slice_lims n]. cbn [fst snd] in Hr.
    destruct (Z.ltb_spec n 0); [discriminate|].
    inv_bind Hr. injection Hr as <- <- <-.
    pose proof E0 as Hloop.
    apply (sliced_outputs z slice_lims) in Hloop;
      [| intros i s s'; apply energy_spread_of_slice_pass].
    destruct Hloop as (_ & L2 & Hall).
    eapply for_each_weights in E0;
      [| intros j s s'; apply energy_spread_of_slice_weights].
    intros i a b Hi. rewrite L2 in Hi. revert i a b Hi.
    apply slice_weights_after_loop; [|exact E0].
    intros i Hi. destruct (Hall i Hi) as (a & b & Ha & Hb & _). eauto.
  - unfold normalized_transverse_rms_slice_emittance in Hr. inv_bind Hr.
    destruct v as [slice_lims n]. cbn [fst snd] in Hr.
    destruct (Z.ltb_spec n 0); [discriminate|].
    inv_bind Hr. injection Hr as <- <- <-.
    pose proof E0 as Hloop.
    apply (sliced_outputs z slice_lims) in Hloop;
      [| intros i s s'; apply emittance_of_slice_pass].
    destruct Hloop as (_ & L2 & Hall).
    eapply for_each_weights in E0;
      [| intros j s s'; apply emittance_of_slice_weights].
    intros i a b Hi. rewrite L2 in Hi. revert i a b Hi.
    apply slice_weights_after_loop; [|exact E0].
    intros i Hi. destruct (Hall i Hi) as (a & b & Ha & Hb & _). eauto.
Qed.

Lemma slice_weight_is_weight_in_slice_witness :
  [2 + 0; 3 + 0] !! 1%nat
  = Some (np_sum (compress (slice_particle_filter [0; 1; 2] 1 2) [1; 2; 3])).
Proof.
  apply (slice_weight_is_weight_in_slice [0; 1; 2] [] [0; 0; 0] [0; 0; 0]
           [0; 0; 0] None None [1; 2; 3] false 2 None
           (relative_rms_slice_energy_spread [0; 1; 2] [0; 0; 0] [0; 0; 0]
              [0; 0; 0] (WArr [1; 2; 3]) 2 None) [0; 0] [2 + 0; 3 + 0]
           [0; 1; 2]).
  - left. reflexivity.
  - exact slices_example.
  - simpl. lia.
  - reflexivity.
  - reflexivity.
Defined.

(** ** Current profile: what is returned *)

Lemma np_sum_compress_nonneg (mask : list bool) (q : array) :
  Forall (fun v => 0 <= v) q -> 0 <= np_sum (compress mask q).
Proof.
  intros Hq. revert mask. induction Hq as [|u q Hu Hq IH]; intros [|b mask];
    simpl; try lra.
  destruct b; simpl; [specialize (IH mask); lra | apply IH].
Qed.

(** X18: when [current_profile] returns currents that are finite
    numbers ([Ok] in this model: a zero slice duration makes the program
    return inf or nan with a warning, which is the outcome [NotFinite]
    here and is not covered), the bunch has at least two different
    positions (min(z) < max(z)), z and q have one length, there is at least
    one slice, the edges are one more than the currents, the first edge is
    min(z) and the last max(z), and charges that are not negative give
    currents that are not negative. *)
Theorem current_profile_finite_currents
    (z q : array) (n_slices : Z) (len_slice : option R)
    (current_prof z_edges : array) :
  current_profile z q n_slices len_slice = Ok (current_prof, z_edges) ->
  exists min_z max_z,
    np_min z = Ok min_z /\ np_max z = Ok max_z /\ min_z < max_z /\
    length z = length q /\
    (1 <= length current_prof)%nat /\
    length z_edges = S (length current_prof) /\
    z_edges !! 0%nat = Some min_z /\
    z_edges !! length current_prof = Some max_z /\
    (Forall (fun v => 0 <= v) q -> Forall (fun v => 0 <= v) current_prof).
Proof.
  unfold current_profile. intros H.
  inv_bind H. inv_bind H. inv_bind H. inv_bind H. inv_bind H. inv_bind H.
  injection H as <- <-.
  rename v into max_z, v0 into min_z, v1 into n, v2 into adj, v3 into hz.
  apply fdiv_ok in E2. destruct E2 as [Hn0 ->].
  unfold np_histogram in E3.
  destruct (Nat.eqb_spec (length z) (length q)) as [Hl|]; [|discriminate].
  cbn [negb] in E3.
  destruct (Z.ltb_spec n 1) as [|Hn]; [discriminate|].
  inv_bind E3. injection E3 as <-. cbn [fst snd] in *.
  pose proof (np_min_le_max _ _ _ E0 E) as Hle.
  assert (HIn : 0 < IZR n) by (apply IZR_lt; lia).
  destruct (Z.to_nat n) as [|m] eqn:Hm; [lia|].
  rewrite seq_S, map_app in E4. cbn [map] in E4.
  unfold np_divide_scalar in E4.
  match type of E4 with
  | match ?l with _ => _ end = _ =>
      destruct l as [|h0 hist] eqn:Hhist;
        [apply app_eq_nil in Hhist; destruct Hhist; discriminate|]
  end.
  destruct (Reqb_spec ((max_z - min_z) / IZR n / ct_c) 0) as [|Hdur];
    [discriminate|].
  injection E4 as <-.
  assert (Hlt : min_z < max_z).
  { destruct (Req_dec_T min_z max_z) as [->|]; [|lra].
    exfalso. apply Hdur. unfold ct_c. field. lra. }
  assert (Hd : 0 < (max_z - min_z) / IZR n / ct_c).
  { unfold ct_c. apply Rdiv_lt_0_compat; [|lra].
    apply Rdiv_lt_0_compat; lra. }
  unfold outer_edges in E2. destruct z as [|z0 z]; [discriminate|].
  rewrite E0, E in E2. simpl_bind_in E2.
  rewrite Reqb_false in E2 by lra. injection E2 as <-. cbn [fst snd] in *.
  assert (Hlen : length (h0 :: hist) = S m).
  { rewrite <- Hhist, length_app, length_map, length_seq. simpl. lia. }
  exists min_z, max_z.
  change (h0 / ((max_z - min_z) / IZR n / ct_c)
          :: map (fun v => v / ((max_z - min_z) / IZR n / ct_c)) hist)
    with (map (fun v => v / ((max_z - min_z) / IZR n / ct_c)) (h0 :: hist)).
  rewrite length_map, Hlen.
  repeat (split; [first [assumption | lia]|]).
  split; [unfold np_linspace; rewrite length_map, length_seq; reflexivity|].
  split; [rewrite linspace_lookup by lia; rewrite grid_0; reflexivity|].
  split; [rewrite linspace_lookup by lia; rewrite grid_n by lia; reflexivity|].
  intros Hq. apply Forall_forall. intros c Hc.
  apply list_elem_of_In, in_map_iff in Hc. destruct Hc as (u & <- & Hu).
  assert (0 <= u).
  { rewrite <- Hhist in Hu. apply in_app_or in Hu. destruct Hu as [Hu|Hu].
    - apply in_map_iff in Hu. destruct Hu as (i & <- & _).
      apply np_sum_compress_nonneg, Hq.
    - destruct Hu as [<-|[]]. apply np_sum_compress_nonneg, Hq. }
  apply Rmult_le_pos; [assumption|]. apply Rlt_le, Rinv_0_lt_compat, Hd.
Qed.

Lemma current_profile_finite_currents_witness :
  exists min_z max_z,
    np_min [0; 1; 2; 3; 4; 5; 6; 7; 8; 9] = Ok min_z /\
    np_max [0; 1; 2; 3; 4; 5; 6; 7; 8; 9] = Ok max_z /\ min_z < max_z /\
    length [0; 1; 2; 3; 4; 5; 6; 7; 8; 9] = length (repeat (1 / 10 ^ 12) 10) /\
    (1 <= length [5 / 10 ^ 12 / (9 / 2 / ct_c);
                  5 / 10 ^ 12 / (9 / 2 / ct_c)]%R)%nat /\
    length [0; 9 / 2; 9]
    = S (length [5 / 10 ^ 12 / (9 / 2 / ct_c); 5 / 10 ^ 12 / (9 / 2 / ct_c)]) /\
    [0; 9 / 2; 9] !! 0%nat = Some min_z /\
    [0; 9 / 2; 9]
      !! length [5 / 10 ^ 12 / (9 / 2 / ct_c); 5 / 10 ^ 12 / (9 / 2 / ct_c)]
    = Some max_z /\
    (Forall (fun v => 0 <= v) (repeat (1 / 10 ^ 12) 10) ->
     Forall (fun v => 0 <= v)
       [5 / 10 ^ 12 / (9 / 2 / ct_c); 5 / 10 ^ 12 / (9 / 2 / ct_c)]).
Proof.
  exact (current_profile_finite_currents _ _ _ _ _ _ current_profile_ten_particles).
Defined.

Lemma py_int_ge_1 (r : R) : (1 <= py_int r)%Z -> 1 <= r.
Proof.
  unfold py_int. destruct (Rltb_spec r 0) as [Hneg|Hpos]; intros H.
  - exfalso. destruct (base_Int_part (- r)) as [_ Hb].
    assert (Hi : (Int_part (- r) <= -1)%Z) by lia.
    apply IZR_le in Hi. lra.
  - destruct (base_Int_part r) as [Ha _]. apply IZR_le in H. lra.
Qed.

Lemma np_divide_scalar_length (a b : array) (s : R) :
  np_divide_scalar a s = Ok b -> length b = length a.
Proof.
  unfold np_divide_scalar. destruct a as [|v a]; [intros [= <-]; reflexivity|].
  destruct (Reqb s 0); [discriminate|].
  intros [= <-]. cbn [length]. rewrite length_map. reflexivity.
Qed.

(** X19: the number of slices of a current profile that is returned.
    Without a slice length it is n_slices, which is at least 1.  With a
    slice length it is int((max(z) - min(z)) / len_slice), and the slice
    length is positive and at most the bunch length max(z) - min(z). *)
Theorem current_profile_slice_count
    (z q : array) (n_slices : Z) (len_slice : option R)
    (current_prof z_edges : array) :
  current_profile z q n_slices len_slice = Ok (current_prof, z_edges) ->
  match len_slice with
  | None => (1 <= n_slices)%Z /\ length current_prof = Z.to_nat n_slices
  | Some len =>
      exists min_z max_z,
        np_min z = Ok min_z /\ np_max z = Ok max_z /\
        0 < len <= max_z - min_z /\
        length current_prof = Z.to_nat (py_int ((max_z - min_z) / len))
  end.
Proof.
  unfold current_profile. intros H.
  inv_bind H. inv_bind H. inv_bind H. inv_bind H. inv_bind H. inv_bind H.
  injection H as <- <-.
  rename v into max_z, v0 into min_z, v1 into n, v2 into adj, v3 into hz.
  pose proof (np_divide_scalar_length _ _ _ E4) as Hlen.
  unfold np_histogram in E3.
  destruct (negb (Nat.eqb (length z) (length q))); [discriminate|].
  destruct (Z.ltb_spec n 1) as [|Hn]; [discriminate|].
  inv_bind E3. injection E3 as <-. cbn [fst snd] in *.
  rewrite length_map, length_seq in Hlen.
  destruct len_slice as [len|].
  - inv_bind E1. injection E1 as <-.
    apply fdiv_ok in E3. destruct E3 as [Hlen0 ->].
    exists min_z, max_z. split; [assumption|]. split; [assumption|].
    split; [|assumption].
    pose proof (py_int_ge_1 _ Hn) as Hr.
    pose proof (np_min_le_max _ _ _ E0 E) as Hle.
    destruct (Rlt_dec 0 len) as [Hpos|Hneg].
    + split; [assumption|].
      apply (Rmult_le_compat_r len) in Hr; [|lra].
      unfold Rdiv in Hr. rewrite Rmult_assoc, Rinv_l in Hr by assumption. lra.
    + exfalso. assert (Hl : len < 0) by lra.
      assert (Hq : (max_z - min_z) / len <= 0).
      { pose proof (Rinv_lt_0_compat _ Hl). unfold Rdiv. nra. }
      lra.
  - injection E1 as <-. split; [lia | assumption].
Qed.

Lemma current_profile_slice_count_witness :
  (1 <= 2)%Z /\
  length [5 / 10 ^ 12 / (9 / 2 / ct_c); 5 / 10 ^ 12 / (9 / 2 / ct_c)]
  = Z.to_nat 2.
Proof.
  exact (current_profile_slice_count _ _ _ _ _ _ current_profile_ten_particles).
Defined.

(** ** Twiss parameters: a second call *)

Lemma np_average_centred (xv : array) (wv : weight) (x_avg : R) :
  np_average xv wv = Ok x_avg ->
  np_average (np_subtract_scalar xv x_avg) wv = Ok 0.
Proof.
  intros H. rewrite shift_as_map, np_average_shift, H.
  cbn [fmap res_fmap]. f_equal. lra.
Qed.

Lemma np_subtract_scalar_0 (a : array) : np_subtract_scalar a 0 = a.
Proof.
  unfold np_subtract_scalar. rewrite <- (map_id a) at 2.
  apply map_ext. intros v. lra.
Qed.

Lemma run_load_opt (py : option arg) (x : loc) (a : array) (h : heap)
    (pyv : option array) :
  py <> Some (ARef x) -> load_opt py h = (h, Ok pyv) ->
  load_opt py (<[x := a]> h) = (<[x := a]> h, Ok pyv).
Proof.
  intros Hne H.
  pose proof (load_opt_insert py x a h Hne) as Hs. rewrite H in Hs.
  pose proof (load_opt_read_only py (<[x := a]> h)) as Hf.
  destruct (load_opt py (<[x := a]> h)) as [h1 r]. cbn [fst snd] in *.
  congruence.
Qed.

Lemma run_load_weight_insert (w : arg) (x : loc) (a : array) (h : heap)
    (wv : weight) :
  w <> ARef x -> load_weight w h = (h, Ok wv) ->
  load_weight w (<[x := a]> h) = (<[x := a]> h, Ok wv).
Proof.
  intros Hne H.
  pose proof (load_weight_insert w x a h Hne) as Hs. rewrite H in Hs.
  pose proof (load_weight_read_only w (<[x := a]> h)) as Hf.
  destruct (load_weight w (<[x := a]> h)) as [h1 r]. cbn [fst snd] in *.
  congruence.
Qed.

(** X20: in the trace-space branch without dispersion correction, with x an
    array of its own, a call that returns can be repeated: on the arrays as
    the first call left them, the second call returns the same Twiss
    parameters and leaves every array as it is (x is centred already). *)
Theorem twiss_parameters_trace_space_second_call
    (x px pz : loc) (py : option arg) (w : arg) (h h' : heap)
    (abg : R * R * R) :
  twiss_parameters x px pz py w "tr" false h = (h', Ok abg) ->
  x <> px -> x <> pz -> py <> Some (ARef x) -> w <> ARef x ->
  twiss_parameters x px pz py w "tr" false h' = (h', Ok abg).
Proof.
  unfold twiss_parameters.
  change (String.eqb "tr" "ph") with false.
  change (String.eqb "tr" "tr") with true.
  cbn iota. intros H Hxpx Hxpz Hpy Hwx.
  repeat inv_run H.
  apply M_bind_ok in H. destruct H as (xp' & h1 & Hd & H).
  injection Hd as <- <-.
  repeat inv_run H. injection H as <- <-.
  rewrite El in Es. injection Es as <-.
  rewrite lookup_insert_eq in El2. injection El2 as <-.
  same_read Ew0 Ew.
  set (xc := np_subtract_scalar a v1) in *.
  set (h1 := <[x := xc]> h).
  assert (Hx1 : h1 !! x = Some xc) by apply lookup_insert_eq.
  assert (Hpx1 : h1 !! px = Some a0).
  { unfold h1. rewrite lookup_insert_ne by assumption. exact El0. }
  assert (Hpz1 : h1 !! pz = Some a1).
  { unfold h1. rewrite lookup_insert_ne by assumption. exact El1. }
  pose proof (run_load_opt py x xc h pyv Hpy Ey) as Hy1. fold h1 in Hy1.
  pose proof (run_load_weight_insert w x xc h wv Hwx Ew) as Hw1. fold h1 in Hw1.
  rewrite (run_bind _ _ _ _ _ (run_load _ _ _ Hx1)).
  rewrite (run_bind _ _ _ _ _ (run_load _ _ _ Hpx1)).
  rewrite (run_bind _ _ _ _ _ Hy1).
  rewrite (run_bind _ _ _ _ _ (run_load _ _ _ Hpz1)).
  rewrite (run_bind _ _ _ _ _ Hw1).
  assert (Hem : transverse_trace_space_rms_emittance xc a0 pyv (Some a1) wv
                  false = Ok v).
  { unfold xc. rewrite shift_as_map, trace_emittance_shift. exact E. }
  rewrite Hem.
  rewrite (run_bind (lift (Ok _)) _ h1 h1 _ eq_refl).
  rewrite E0. rewrite (run_bind (lift (Ok _)) _ h1 h1 _ eq_refl).
  pose proof (np_average_centred _ _ _ E1) as Hc. fold xc in Hc. rewrite Hc.
  rewrite (run_bind (lift (Ok _)) _ h1 h1 _ eq_refl).
  rewrite E2. rewrite (run_bind (lift (Ok _)) _ h1 h1 _ eq_refl).
  rewrite (run_bind _ _ _ _ _ (run_isub_scalar _ _ _ _ Hx1)).
  rewrite np_subtract_scalar_0.
  replace (<[x := xc]> h1) with h1
    by (unfold h1; rewrite insert_insert_eq; reflexivity).
  cbv zeta.
  rewrite (run_bind (mret _) _ h1 h1 _ eq_refl).
  rewrite (run_bind _ _ _ _ _ (run_load _ _ _ Hx1)).
  rewrite (run_bind _ _ _ _ _ Hw1).
  rewrite E3. rewrite (run_bind (lift (Ok _)) _ h1 h1 _ eq_refl).
  rewrite E4. rewrite (run_bind (lift (Ok _)) _ h1 h1 _ eq_refl).
  rewrite E5. rewrite (run_bind (lift (Ok _)) _ h1 h1 _ eq_refl).
  rewrite E6. rewrite (run_bind (lift (Ok _)) _ h1 h1 _ eq_refl).
  rewrite E7. rewrite (run_bind (lift (Ok _)) _ h1 h1 _ eq_refl).
  rewrite E8. rewrite (run_bind (lift (Ok _)) _ h1 h1 _ eq_refl).
  reflexivity.
Qed.

Lemma twiss_parameters_trace_space_second_call_witness :
  exists abg,
    twiss_parameters 1%positive 2%positive 4%positive (Some (ARef 3%positive))
      (ARef 5%positive) "tr" false
      (<[1%positive := [1; -1; -1; 1]]> example_beam)
    = (<[1%positive := [1; -1; -1; 1]]> example_beam, Ok abg).
Proof.
  destruct example_beam_run as [abg Hrun]. exists abg.
  apply (twiss_parameters_trace_space_second_call _ _ _ _ _ _ _ _ Hrun);
    discriminate.
Defined.
